(** * Locas: the query API client and the query-resolution pipeline

    Part 1 embeds the frontend client [src/src/frontend/lib/api.ts]:
    [processQuery] and the Server-Sent-Events reader [processQueryStream],
    together with the piece of [JSON.parse] they rely on.

    Text is modelled after decoding, as a list of code units: Rocq's
    [string] of [ascii].  For ASCII bodies [TextDecoder] in streaming mode
    is the identity on bytes, so a reader chunk is its decoded text. *)

From Stdlib Require Import String Ascii List ZArith Bool Lia.
Import ListNotations.

Open Scope string_scope.

(* ------------------------------------------------------------------ *)
(** ** Characters and the string builtins used by the client *)

Definition nl : ascii := ascii_of_nat 10.

Definition is_nl (c : ascii) : bool := Ascii.eqb c nl.

(** White space removed by [String.prototype.trim], restricted to the
    ASCII range: TAB, LF, VT, FF, CR and SPACE. *)
Definition is_js_ws (c : ascii) : bool :=
  let n := nat_of_ascii c in
  (Nat.leb 9 n && Nat.leb n 13) || Nat.eqb n 32.

Fixpoint trim_start (s : string) : string :=
  match s with
  | EmptyString => EmptyString
  | String c r => if is_js_ws c then trim_start r else s
  end.

Fixpoint rev_string (s : string) : string :=
  match s with
  | EmptyString => EmptyString
  | String c r => rev_string r ++ String c EmptyString
  end.

Definition trim_end (s : string) : string :=
  rev_string (trim_start (rev_string s)).

(** [s.trim()] *)
Definition trim (s : string) : string := trim_end (trim_start s).

(** [s.startsWith(p)] *)
Definition startsWith (s p : string) : bool := String.prefix p s.

(** [s.slice(n)] for [0 <= n] *)
Fixpoint slice (n : nat) (s : string) : string :=
  match n, s with
  | O, _ => s
  | S _, EmptyString => EmptyString
  | S k, String _ r => slice k r
  end.

(** Prepend one code unit to the first piece of a split. *)
Definition cons_first (c : ascii) (ps : list string) : list string :=
  match ps with
  | [] => [String c EmptyString]
  | p :: ps' => String c p :: ps'
  end.

(** [s.split('\n\n')]: the separator is searched from the left and the
    pieces between non-overlapping occurrences are returned; the result is
    never empty ([''.split(sep)] is [['']]). *)
Fixpoint split_nn (s : string) : list string :=
  match s with
  | EmptyString => [EmptyString]
  | String c rest =>
      match rest with
      | EmptyString => [String c EmptyString]
      | String c' rest' =>
          if is_nl c && is_nl c' then EmptyString :: split_nn rest'
          else cons_first c (split_nn rest)
      end
  end.

(** [parts.pop()]: the last piece, and the pieces before it. *)
Definition pop (ps : list string) : list string * string :=
  (removelast ps, last ps EmptyString).

(* ------------------------------------------------------------------ *)
(** ** The stream reader [processQueryStream]

    [JSON_parse] stands for the builtin [JSON.parse]: [None] is the case
    where it throws.  The reader is generic in it; Part 2 gives a concrete
    parser.  The result of the embedding is the list of arguments of the
    successive [onEvent] calls. *)

Section Reader.

Variable value : Type.
Variable JSON_parse : string -> option value.

(** The body of the [for (const part of parts)] loop for one part:
    [Some ev] when it calls [onEvent(ev)], [None] when it [continue]s
    (no [data:] prefix, or [JSON.parse] threw and the error was logged). *)
Definition process_part (part : string) : option value :=
  let trimmed := trim part in
  if negb (startsWith trimmed "data:") then None
  else
    let jsonStr := trim (slice (String.length "data:") trimmed) in
    JSON_parse jsonStr.

Fixpoint filter_map_parts (ps : list string) : list value :=
  match ps with
  | [] => []
  | p :: ps' =>
      match process_part p with
      | Some ev => ev :: filter_map_parts ps'
      | None => filter_map_parts ps'
      end
  end.

(** The [while (true)] loop: one iteration per [reader.read()] chunk, the
    loop ends ([done]) when the chunks run out; the [buffer] left then is
    dropped. *)
Fixpoint read_loop (buffer : string) (chunks : list string) : list value :=
  match chunks with
  | [] => []
  | value_ :: rest =>
      let buffer1 := buffer ++ value_ in
      let (parts, buffer2) := pop (split_nn buffer1) in
      filter_map_parts parts ++ read_loop buffer2 rest
  end.

(** [processQueryStream] once the response has a body: the reader starts
    with an empty buffer. *)
Definition processQueryStream (chunks : list string) : list value :=
  read_loop EmptyString chunks.

End Reader.

Arguments process_part {value} JSON_parse part.
Arguments filter_map_parts {value} JSON_parse ps.
Arguments read_loop {value} JSON_parse buffer chunks.
Arguments processQueryStream {value} JSON_parse chunks.

(** The whole body, as the concatenation of the chunks. *)
Fixpoint join (cs : list string) : string :=
  match cs with
  | [] => EmptyString
  | c :: cs' => c ++ join cs'
  end.

(* ------------------------------------------------------------------ *)
(** ** Bodies made of frames *)

Definition sep : string := String nl (String nl EmptyString).

(** Does the text contain the separator ['\n\n']? *)
Fixpoint has_sep (s : string) : bool :=
  match s with
  | String c ((String c' _) as rest) => (is_nl c && is_nl c') || has_sep rest
  | _ => false
  end.

(** A frame is well separated when the separator that follows it is the
    first one [split] finds: the frame neither contains ['\n\n'] nor ends
    with ['\n']. *)
Definition well_separated (f : string) : bool :=
  negb (has_sep (f ++ String nl EmptyString)).

(** A body sent as the frames [fs], each followed by ['\n\n'], and then
    the bytes [tail]. *)
Definition body_of (fs : list string) (tail : string) : string :=
  join (map (fun f => f ++ sep) fs) ++ tail.

(** What the code parses for a part: the trimmed text after [data:]. *)
Definition data_payload (part : string) : string :=
  trim (slice (String.length "data:") (trim part)).

(** The number of separators [split] cuts at: the occurrences of
    ['\n\n'] found from the left, without overlap. *)
Fixpoint count_sep (s : string) : nat :=
  match s with
  | EmptyString => O
  | String c rest =>
      match rest with
      | EmptyString => O
      | String c' rest' =>
          if is_nl c && is_nl c' then S (count_sep rest') else count_sep rest
      end
  end.

(* ================================================================== *)
(** * Part 2: [JSON.parse]

    A recursive-descent reading of RFC 8259 as [JSON.parse] implements it:
    white space is SPACE, TAB, LF and CR; strings hold UTF-16 code units
    (here the codes of the input's code units, and the values of [\uXXXX]
    escapes); numbers are kept exactly as a mantissa and a power of ten;
    in an object a repeated key keeps its last value. *)

Module Json.

Open Scope Z_scope.

Inductive json : Type :=
| JNull
| JBool (b : bool)
| JNum (mantissa : Z) (exp10 : Z)
| JStr (s : list Z)
| JArr (l : list json)
| JObj (fields : list (list Z * json)).

Definition code (c : ascii) : Z := Z.of_nat (nat_of_ascii c).

(** The code units of a literal, to compare keys and string values. *)
Fixpoint units (s : string) : list Z :=
  match s with
  | EmptyString => []
  | String c r => code c :: units r
  end.

Definition is_json_ws (c : ascii) : bool :=
  let n := code c in (n =? 32) || (n =? 9) || (n =? 10) || (n =? 13).

Fixpoint skip_ws (s : string) : string :=
  match s with
  | String c r => if is_json_ws c then skip_ws r else s
  | EmptyString => EmptyString
  end.

Definition is_digit (c : ascii) : bool := (48 <=? code c) && (code c <=? 57).

Definition ch (c : ascii) (n : Z) : bool := code c =? n.

(** The longest run of digits at the front. *)
Fixpoint digits (s : string) : list Z * string :=
  match s with
  | String c r =>
      if is_digit c then let (ds, r') := digits r in (code c - 48 :: ds, r')
      else ([], s)
  | EmptyString => ([], EmptyString)
  end.

Definition digits_value (ds : list Z) : Z :=
  fold_left (fun acc d => acc * 10 + d) ds 0.

(** [-? (0 | [1-9][0-9]* ) (. [0-9]+)? ([eE] [+-]? [0-9]+)?] *)
Definition pnumber (s : string) : option (json * string) :=
  let '(neg, s1) :=
    match s with
    | String c r => if ch c 45 then (true, r) else (false, s)
    | EmptyString => (false, s)
    end in
  match s1 with
  | String c r =>
      if negb (is_digit c) then None else
      let '(ids, s2) :=
        if ch c 48 then ([0], r)
        else let (ds, r') := digits r in (code c - 48 :: ds, r') in
      let frac :=
        match s2 with
        | String d r3 =>
            if ch d 46 then
              let (fs, r4) := digits r3 in
              match fs with [] => None | _ => Some (fs, r4) end
            else Some ([], s2)
        | EmptyString => Some ([], s2)
        end in
      match frac with
      | None => None
      | Some (fds, s3) =>
          let expo :=
            match s3 with
            | String e r5 =>
                if ch e 101 || ch e 69 then
                  let '(eneg, r6) :=
                    match r5 with
                    | String sg r7 =>
                        if ch sg 45 then (true, r7)
                        else if ch sg 43 then (false, r7) else (false, r5)
                    | EmptyString => (false, r5)
                    end in
                  let (eds, r8) := digits r6 in
                  match eds with
                  | [] => None
                  | _ => Some ((if eneg then - digits_value eds
                                else digits_value eds), r8)
                  end
                else Some (0, s3)
            | EmptyString => Some (0, s3)
            end in
          match expo with
          | None => None
          | Some (e, rest) =>
              let m := digits_value (ids ++ fds) in
              Some (JNum (if neg then - m else m)
                         (e - Z.of_nat (length fds)), rest)
          end
      end
  | EmptyString => None
  end.

Definition hex_value (c : ascii) : option Z :=
  let n := code c in
  if (48 <=? n) && (n <=? 57) then Some (n - 48)
  else if (65 <=? n) && (n <=? 70) then Some (n - 55)
  else if (97 <=? n) && (n <=? 102) then Some (n - 87)
  else None.

(** The code unit of a one-letter escape: a backslash followed by a
    quote, a backslash, a slash, or one of the letters b f n r t. *)
Definition simple_escape (c : ascii) : option Z :=
  let n := code c in
  if n =? 34 then Some 34 else if n =? 92 then Some 92
  else if n =? 47 then Some 47 else if n =? 98 then Some 8
  else if n =? 102 then Some 12 else if n =? 110 then Some 10
  else if n =? 114 then Some 13 else if n =? 116 then Some 9
  else None.

(** The rest of a string literal, after its opening quote. *)
Fixpoint pstr (s : string) : option (list Z * string) :=
  match s with
  | EmptyString => None
  | String c r =>
      if ch c 34 then Some ([], r)
      else if ch c 92 then
        match r with
        | EmptyString => None
        | String e r' =>
            match simple_escape e with
            | Some u =>
                match pstr r' with
                | Some (us, rest) => Some (u :: us, rest)
                | None => None
                end
            | None =>
                if ch e 117 then
                  match r' with
                  | String h1 (String h2 (String h3 (String h4 r''))) =>
                      match hex_value h1, hex_value h2, hex_value h3,
                            hex_value h4, pstr r'' with
                      | Some a, Some b, Some c', Some d, Some (us, rest) =>
                          Some (((a * 16 + b) * 16 + c') * 16 + d :: us, rest)
                      | _, _, _, _, _ => None
                      end
                  | _ => None
                  end
                else None
            end
        end
      else if code c <? 32 then None
      else
        match pstr r with
        | Some (us, rest) => Some (code c :: us, rest)
        | None => None
        end
  end.

(** Values, array elements and object members; [fuel] bounds the depth
    of the descent. *)
Fixpoint pvalue (fuel : nat) (s : string) {struct fuel} : option (json * string) :=
  match fuel with
  | O => None
  | S f =>
      match skip_ws s with
      | EmptyString => None
      | String c r as s' =>
          if ch c 123 then
            match skip_ws r with
            | String c2 r2 =>
                if ch c2 125 then Some (JObj [], r2)
                else match pmembers f r with
                     | Some (ms, rest) => Some (JObj ms, rest)
                     | None => None
                     end
            | EmptyString => None
            end
          else if ch c 91 then
            match skip_ws r with
            | String c2 r2 =>
                if ch c2 93 then Some (JArr [], r2)
                else match pelems f r with
                     | Some (vs, rest) => Some (JArr vs, rest)
                     | None => None
                     end
            | EmptyString => None
            end
          else if ch c 34 then
            match pstr r with
            | Some (us, rest) => Some (JStr us, rest)
            | None => None
            end
          else if String.prefix "true" s' then Some (JBool true, slice 4 s')
          else if String.prefix "false" s' then Some (JBool false, slice 5 s')
          else if String.prefix "null" s' then Some (JNull, slice 4 s')
          else pnumber s'
      end
  end
with pelems (fuel : nat) (s : string) {struct fuel} : option (list json * string) :=
  match fuel with
  | O => None
  | S f =>
      match pvalue f s with
      | None => None
      | Some (v, r) =>
          match skip_ws r with
          | String c r' =>
              if ch c 44 then
                match pelems f r' with
                | Some (vs, rest) => Some (v :: vs, rest)
                | None => None
                end
              else if ch c 93 then Some ([v], r')
              else None
          | EmptyString => None
          end
      end
  end
with pmembers (fuel : nat) (s : string) {struct fuel}
    : option (list (list Z * json) * string) :=
  match fuel with
  | O => None
  | S f =>
      match skip_ws s with
      | String q r =>
          if negb (ch q 34) then None else
          match pstr r with
          | None => None
          | Some (k, r1) =>
              match skip_ws r1 with
              | String col r2 =>
                  if negb (ch col 58) then None else
                  match pvalue f r2 with
                  | None => None
                  | Some (v, r3) =>
                      match skip_ws r3 with
                      | String c r4 =>
                          if ch c 44 then
                            match pmembers f r4 with
                            | Some (ms, rest) => Some ((k, v) :: ms, rest)
                            | None => None
                            end
                          else if ch c 125 then Some ([(k, v)], r4)
                          else None
                      | EmptyString => None
                      end
                  end
              | EmptyString => None
              end
          end
      | EmptyString => None
      end
  end.

(** [JSON.parse(s)]: one value and nothing but white space after it;
    [None] when it throws a [SyntaxError].  Every call of the descent
    consumes at least one code unit, so the fuel never runs out first. *)
Definition parse (s : string) : option json :=
  match pvalue (S (2 * String.length s)) s with
  | Some (v, rest) =>
      match skip_ws rest with
      | EmptyString => Some v
      | _ => None
      end
  | None => None
  end.

(** Property lookup on a parsed object: the last member with the key. *)
Definition get (k : string) (v : json) : option json :=
  match v with
  | JObj fs =>
      fold_left (fun acc '(k', x) =>
                   if list_eq_dec Z.eq_dec k' (units k) then Some x else acc)
                fs None
  | _ => None
  end.

End Json.

(* ================================================================== *)
(** * Part 3: the client's view of the two interfaces *)

Module Client.

Import Json.

Definition dq : string := String (ascii_of_nat 34) EmptyString.

(** A JSON string literal (for texts with no quote or backslash). *)
Definition lit (s : string) : string := dq ++ s ++ dq.

(** [processQuery]: [(await response.json()) as ProcessQueryResponse].
    The cast checks nothing: the result is the parsed body as it is;
    [None] is the case where [response.json()] rejects. *)
Definition processQuery (body : string) : option json := Json.parse body.

(** [processQueryStream] with the builtin [JSON.parse]. *)
Definition processQueryStream_json (chunks : list string) : list json :=
  processQueryStream Json.parse chunks.

Definition str_is (k : string) (v : json) (s : string) : bool :=
  match get k v with
  | Some (JStr u) => if list_eq_dec Z.eq_dec u (units s) then true else false
  | _ => false
  end.

Definition has_string (k : string) (v : json) : bool :=
  match get k v with Some (JStr _) => true | _ => false end.

Definition optional_string (k : string) (v : json) : bool :=
  match get k v with None => true | Some (JStr _) => true | _ => false end.

Definition is_object (v : json) : bool :=
  match v with JObj _ => true | _ => false end.

Definition only_keys (allowed : list string) (v : json) : bool :=
  match v with
  | JObj fs =>
      forallb (fun '(k, _) =>
                 existsb (fun a => if list_eq_dec Z.eq_dec k (units a)
                                   then true else false) allowed) fs
  | _ => false
  end.

(** The non-streaming response as the spec's section 6 states it:
    [{status: success|warning|error, result?: string, message?: string}]. *)
Definition spec_query_response (v : json) : bool :=
  is_object v
  && (str_is "status" v "success" || str_is "status" v "warning"
      || str_is "status" v "error")
  && optional_string "result" v && optional_string "message" v
  && only_keys ["status"; "result"; "message"] v.

(** A streaming event as the spec's section 6 states it:
    [{type: tool, tool: string}] or
    [{type: final, status: success|warning|error, result?, message?, tool?}]. *)
Definition spec_stream_event (v : json) : bool :=
  is_object v
  && ((str_is "type" v "tool" && has_string "tool" v
       && only_keys ["type"; "tool"] v)
      || (str_is "type" v "final"
          && (str_is "status" v "success" || str_is "status" v "warning"
              || str_is "status" v "error")
          && optional_string "result" v && optional_string "message" v
          && optional_string "tool" v
          && only_keys ["type"; "status"; "result"; "message"; "tool"] v)).

(** The events the reader delivers for a list of frames: one per frame
    whose trimmed text starts with [data:] and whose payload parses. *)
Fixpoint delivered (fs : list string) : list json :=
  match fs with
  | [] => []
  | f :: fs' =>
      if startsWith (trim f) "data:" then
        match Json.parse (data_payload f) with
        | Some v => v :: delivered fs'
        | None => delivered fs'
        end
      else delivered fs'
  end.

(* Sample frames of a run, in the wire format of the spec. *)
Definition frame_tool : string :=
  "data: {" ++ lit "type" ++ ": " ++ lit "tool" ++ ", "
  ++ lit "tool" ++ ": " ++ lit "geocode" ++ "}".

Definition frame_final : string :=
  "data: {" ++ lit "type" ++ ": " ++ lit "final" ++ ", "
  ++ lit "status" ++ ": " ++ lit "success" ++ ", "
  ++ lit "result" ++ ": " ++ lit "Two parks nearby" ++ "}".

Definition frame_malformed : string := "data: {" ++ lit "type" ++ ": ".

Definition frame_number : string := "data: 42".


(* Line endings of a body framed with CRLF instead of bare newlines. *)
Definition cr : string := String (ascii_of_nat 13) EmptyString.
Definition crlf : string := cr ++ String nl EmptyString.

End Client.

(* ================================================================== *)
(** * Part 3b: the requests: [JSON.stringify] of the request body *)

Module Stringify.

Import Client.

Definition bs : ascii := ascii_of_nat 92.
Definition dqc : ascii := ascii_of_nat 34.

(** A lowercase hexadecimal digit. *)
Definition hex_lower (n : nat) : ascii :=
  ascii_of_nat (if Nat.ltb n 10 then 48 + n else 87 + n).

(** [QuoteJSONString] for one code unit: the seven characters with a short
    escape, [\u00xx] in lowercase hexadecimal for the other control
    characters, any other code unit as it is. *)
Definition quote_unit (c : ascii) : string :=
  let n := nat_of_ascii c in
  if Nat.eqb n 8 then String bs "b"
  else if Nat.eqb n 9 then String bs "t"
  else if Nat.eqb n 10 then String bs "n"
  else if Nat.eqb n 12 then String bs "f"
  else if Nat.eqb n 13 then String bs "r"
  else if Nat.eqb n 34 then String bs dq
  else if Nat.eqb n 92 then String bs (String bs EmptyString)
  else if Nat.ltb n 32 then
    String bs ("u00" ++ String (hex_lower (n / 16))
                          (String (hex_lower (n mod 16)) EmptyString))
  else String c EmptyString.

Fixpoint quote_units (s : string) : string :=
  match s with
  | EmptyString => EmptyString
  | String c r => quote_unit c ++ quote_units r
  end.

(** [JSON.stringify] of a string. *)
Definition quote_json (s : string) : string := dq ++ quote_units s ++ dq.

(** [JSON.stringify({ query: queryText, userId: userId })]: the members
    in order, no white space, and a member whose value is [undefined]
    left out. *)
Definition request_body (queryText : string) (userId : option string) : string :=
  "{" ++ quote_json "query" ++ ":" ++ quote_json queryText
  ++ match userId with
     | Some u => "," ++ quote_json "userId" ++ ":" ++ quote_json u
     | None => EmptyString
     end
  ++ "}".

Record Request : Type := mkRequest {
  req_url : string;
  req_method : string;
  req_content_type : string;
  req_body : string
}.

(** A template literal [`${API_URL}...`]: an unset variable prints as
    [undefined]. *)
Definition api_url (API_URL : option string) (path : string) : string :=
  match API_URL with Some u => u | None => "undefined" end ++ path.

(** The request [processQuery] sends (api.ts, lines 10-16). *)
Definition processQuery_request (API_URL : option string) (queryText : string)
    (userId : option string) : Request :=
  mkRequest (api_url API_URL "/api/process-query") "POST" "application/json"
    (request_body queryText userId).

(** The request [processQueryStream] sends (api.ts, lines 38-42). *)
Definition processQueryStream_request (API_URL : option string)
    (queryText : string) (userId : option string) : Request :=
  mkRequest (api_url API_URL "/api/process-query-stream") "POST" "application/json"
    (request_body queryText userId).

End Stringify.

(* ================================================================== *)
(** * Part 3c: the query page [submitQuery] (src/unnamed/part_000)

    The page's state is what its script writes: the spinner's display,
    the status message (the text assigned to [innerHTML], and the
    [className]), the result box's text and display, and the requests
    posted.  Texts are JavaScript strings, lists of code units. *)

Module Page.

Import Json Client Stringify.

(** A JavaScript value read from the parsed response. *)
Inductive jsval : Type :=
| JsUndefined
| JsVal (v : json).

(** [data.k] for the keys [status], [result] and [message], which no
    prototype defines: [None] when it throws a [TypeError] ([data] is
    [null]); a missing member, and any member of a primitive or an array,
    is [undefined]. *)
Definition member (k : string) (data : json) : option jsval :=
  match data with
  | JNull => None
  | JObj _ => Some (match get k data with Some x => JsVal x | None => JsUndefined end)
  | _ => Some JsUndefined
  end.

(** [x === 'lit'] *)
Definition js_str_eq (x : jsval) (s : string) : bool :=
  match x with
  | JsVal (JStr u) => if list_eq_dec Z.eq_dec u (units s) then true else false
  | _ => false
  end.

Section ToString.

(** [Number::toString], applied to the number nearest to
    [mantissa * 10 ^ exp10]. *)
Variable number_to_string : Z -> Z -> list Z.

(** [ToString] of a parsed value: an array prints as [join(',')] with
    [null] elements empty, an object as [[object Object]]. *)
Fixpoint json_to_string (v : json) : list Z :=
  match v with
  | JNull => units "null"
  | JBool b => units (if b then "true" else "false")
  | JNum m e => number_to_string m e
  | JStr u => u
  | JArr l =>
      (fix go (l : list json) : list Z :=
         match l with
         | [] => []
         | x :: r =>
             app (match x with JNull => [] | _ => json_to_string x end)
                 (match r with [] => [] | _ => 44 :: go r end)
         end) l
  | JObj _ => units "[object Object]"
  end.

Definition js_to_string (x : jsval) : list Z :=
  match x with
  | JsUndefined => units "undefined"
  | JsVal v => json_to_string v
  end.

(** The [textContent] setter: [null] and [undefined] give the empty text. *)
Definition text_content (x : jsval) : list Z :=
  match x with
  | JsUndefined | JsVal JNull => []
  | JsVal v => json_to_string v
  end.

(** The [innerHTML] setter: [null] gives the empty text, [undefined] the
    text [undefined]. *)
Definition html_text (x : jsval) : list Z :=
  match x with
  | JsVal JNull => []
  | _ => js_to_string x
  end.

Record PageState : Type := mkPageState {
  query_value : string;
  loading_display : list Z;
  status_html : list Z;
  status_class : list Z;
  result_text : list Z;
  result_display : list Z;
  posted : list string
}.

(** The message of the page for a literal text. *)
Definition lit_msg (s : string) : jsval := JsVal (JStr (units s)).

(** [fillExample(example)] *)
Definition fillExample (example : string) (p : PageState) : PageState :=
  mkPageState example (loading_display p) (status_html p) (status_class p)
    (result_text p) (result_display p) (posted p).

(** [showMessage(message, type)] *)
Definition showMessage (message : jsval) (type_ : string) (p : PageState)
    : PageState :=
  mkPageState (query_value p) (loading_display p) (html_text message)
    (units type_) (result_text p) (result_display p) (posted p).

Definition set_loading (d : string) (p : PageState) : PageState :=
  mkPageState (query_value p) (units d) (status_html p) (status_class p)
    (result_text p) (result_display p) (posted p).

(** [result.textContent = r; result.style.display = 'block'] *)
Definition show_result (r : jsval) (p : PageState) : PageState :=
  mkPageState (query_value p) (loading_display p) (status_html p)
    (status_class p) (text_content r) (units "block") (posted p).

(** The synchronous part of [submitQuery] for a non-empty query: the
    spinner shown, the message cleared, the result hidden, and the
    request [JSON.stringify({query: query})] posted. *)
Definition submit_start (p : PageState) : PageState :=
  mkPageState (query_value p) (units "block") [] (status_class p)
    (result_text p) (units "none") (app (posted p) [request_body (query_value p) None]).

(** The [.catch] handler. *)
Definition on_failure (p : PageState) : PageState :=
  showMessage (lit_msg "Error connecting to the server. Please try again.") "error"
    (set_loading "none" p).

(** The [.then(data => ...)] handler; a [TypeError] it throws goes to the
    [.catch] handler. *)
Definition on_data (data : json) (p0 : PageState) : PageState :=
  let p := set_loading "none" p0 in
  match member "status" data with
  | None => on_failure p
  | Some st =>
      if js_str_eq st "success" then
        match member "result" data with
        | None => on_failure p
        | Some r =>
            showMessage (lit_msg "Query processed successfully!") "success"
              (show_result r p)
        end
      else if js_str_eq st "warning" then
        match member "result" data with
        | None => on_failure p
        | Some r =>
            match member "message" data with
            | None => on_failure (show_result r p)
            | Some m => showMessage m "warning" (show_result r p)
            end
        end
      else
        match member "message" data with
        | None => on_failure p
        | Some m =>
            showMessage (JsVal (JStr (app (units "Error: ") (js_to_string m))))
              "error" p
        end
  end.

(** How the [fetch] settles: it rejects (network failure), or it resolves
    with a response whose body is the given text, whatever its HTTP
    status. *)
Inductive FetchOutcome : Type :=
| NetworkError
| ResponseBody (body : string).

(** [submitQuery()], once its [fetch] has settled with [outcome];
    [response.json()] rejects when the body is not JSON. *)
Definition submitQuery (outcome : FetchOutcome) (p : PageState) : PageState :=
  match query_value p with
  | EmptyString => showMessage (lit_msg "Please enter a query.") "error" p
  | _ =>
      let p1 := submit_start p in
      match outcome with
      | NetworkError => on_failure p1
      | ResponseBody body =>
          match Json.parse body with
          | None => on_failure p1
          | Some data => on_data data p1
          end
      end
  end.

End ToString.


(* A page as loaded, with [q] typed in the query box. *)
Definition sample_page (q : string) : PageState :=
  mkPageState q [] [] [] [] (units "none") [].

(* Some Number::toString, for concrete runs of the page. *)
Definition digits_number (m e : Z) : list Z := units "n".


End Page.


(* ================================================================== *)
(** * Part 4: the query-resolution pipeline

    The backend of the repository (the Location Extractor, the Geocoder
    Adapter and the Planner/Orchestrator) is not among the sources; the
    definitions below follow the spec's sections 4 to 7. *)

Module Extractor.

Open Scope Z_scope.

(** Modelled from the spec: a decimal literal [-?[0-9]+(.[0-9]+)?] denotes
    [mant / 10 ^ scale]. *)
Record dec : Type := mkdec { mant : Z; scale : nat }.

(** Modelled from the spec: a character compared with a code. *)
Definition is_char (c : ascii) (n : nat) : bool := Nat.eqb (nat_of_ascii c) n.

(** Modelled from the spec: section 4.1, decimal numbers; the decimal
    literal at the front of the text, if any; a dot not followed by a digit
    ends the number. *)
Definition pdec (s : string) : option (dec * string) :=
  let '(neg, s1) :=
    match s with
    | String c r => if is_char c 45 then (true, r) else (false, s)
    | EmptyString => (false, s)
    end in
  let (ids, s2) := Json.digits s1 in
  match ids with
  | [] => None
  | _ :: _ =>
      let '(fds, s3) :=
        match s2 with
        | String d r =>
            if is_char d 46 then
              let (fds, r') := Json.digits r in
              match fds with [] => ([], s2) | _ :: _ => (fds, r') end
            else ([], s2)
        | EmptyString => ([], s2)
        end in
      let m := Json.digits_value (ids ++ fds) in
      Some (mkdec (if neg then - m else m) (length fds), s3)
  end.

(** Modelled from the spec: a decimal between two integer bounds. *)
Definition in_range (d : dec) (lo hi : Z) : bool :=
  (lo * 10 ^ Z.of_nat (scale d) <=? mant d)
  && (mant d <=? hi * 10 ^ Z.of_nat (scale d)).

(** Modelled from the spec: first in [-90,90], second in [-180,180]. *)
Definition plausible (lat lon : dec) : bool :=
  in_range lat (-90) 90 && in_range lon (-180) 180.

(** Modelled from the spec: section 4.1, rule 2; two decimal numbers
    separated by a comma and optional white space, at the front. *)
Definition ppair (s : string) : option (dec * dec * string) :=
  match pdec s with
  | None => None
  | Some (a, r1) =>
      match trim_start r1 with
      | String c r2 =>
          if is_char c 44 then
            match pdec (trim_start r2) with
            | Some (b, r3) => Some (a, b, r3)
            | None => None
            end
          else None
      | EmptyString => None
      end
  end.

(** Modelled from the spec: a number starts at a position not preceded by a
    digit or a dot. *)
Definition number_boundary (prev : option ascii) : bool :=
  match prev with
  | None => true
  | Some p => negb (Json.is_digit p || is_char p 46)
  end.

(** Modelled from the spec: section 4.1, rule 2; the leftmost plausible
    latitude/longitude pair of the text. *)
Fixpoint find_coords (prev : option ascii) (s : string) : option (dec * dec) :=
  match s with
  | EmptyString => None
  | String c r =>
      match (if number_boundary prev then ppair s else None) with
      | Some (a, b, _) => if plausible a b then Some (a, b) else find_coords (Some c) r
      | None => find_coords (Some c) r
      end
  end.

(** Modelled from the spec: the text up to the next white space. *)
Fixpoint take_token (s : string) : string :=
  match s with
  | String c r => if is_js_ws c then EmptyString else String c (take_token r)
  | EmptyString => EmptyString
  end.

(** Modelled from the spec: substring test. *)
Fixpoint contains (needle s : string) : bool :=
  String.prefix needle s ||
  match s with String _ r => contains needle r | EmptyString => false end.

(** Modelled from the spec: sections 4.1 and 4.2; the coordinates of a
    map URL, from the first [q=] or path [@] followed by a plausible pair. *)
Fixpoint url_coords (s : string) : option (dec * dec) :=
  match s with
  | EmptyString => None
  | String c r =>
      let after :=
        if is_char c 64 then Some r
        else if String.prefix "q=" s then Some (slice 2 s) else None in
      match after with
      | Some t =>
          match ppair t with
          | Some (a, b, _) => if plausible a b then Some (a, b) else url_coords r
          | None => url_coords r
          end
      | None => url_coords r
      end
  end.

(** Modelled from the spec: a token of a map service with embedded
    coordinates. *)
Definition is_maps_url (tok : string) : bool :=
  (String.prefix "http://" tok || String.prefix "https://" tok)
  && contains "maps" tok
  && match url_coords tok with Some _ => true | None => false end.

(** Modelled from the spec: a token starts after white space or at the front. *)
Definition word_boundary (prev : option ascii) : bool :=
  match prev with None => true | Some p => is_js_ws p end.

(** Modelled from the spec: section 4.1, rule 1; the leftmost map-service
    URL with an embedded [q=lat,lon] or [@lat,lon]. *)
Fixpoint find_maps_url (prev : option ascii) (s : string) : option string :=
  match s with
  | EmptyString => None
  | String c r =>
      let tok := take_token s in
      if word_boundary prev && is_maps_url tok then Some tok
      else find_maps_url (Some c) r
  end.

(** Modelled from the spec: the prepositions that introduce an address
    (section 4.1, rule 3). *)
Definition prepositions : list string := ["near"; "nearby"; "around"; "in"; "at"].

(** Modelled from the spec: the characters that end a sentence. *)
Definition is_sentence_end (c : ascii) : bool :=
  is_char c 46 || is_char c 33 || is_char c 63.

(** Modelled from the spec: the text up to the sentence end. *)
Fixpoint take_sentence (s : string) : string :=
  match s with
  | String c r => if is_sentence_end c then EmptyString else String c (take_sentence r)
  | EmptyString => EmptyString
  end.

(** Modelled from the spec: the text after a preposition at the front, up to
    the sentence end. *)
Definition after_preposition (s : string) : option string :=
  fold_right
    (fun p acc =>
       if String.prefix (p ++ " ") s then
         match trim (take_sentence (slice (String.length p + 1) s)) with
         | EmptyString => acc
         | cand => Some cand
         end
       else acc)
    None prepositions.

(** Modelled from the spec: the address candidates of the text, left to
    right. *)
Fixpoint address_candidates (prev : option ascii) (s : string) : list string :=
  match s with
  | EmptyString => []
  | String c r =>
      let rest := address_candidates (Some c) r in
      if word_boundary prev then
        match after_preposition s with
        | Some a => a :: rest
        | None => rest
        end
      else rest
  end.

(** Modelled from the spec: section 4.1, rule 3; the longest candidate,
    the leftmost among equally long ones. *)
Definition find_address (s : string) : option string :=
  fold_left
    (fun acc x =>
       match acc with
       | None => Some x
       | Some y => if Nat.ltb (String.length y) (String.length x) then Some x else acc
       end)
    (address_candidates None s) None.

(** Modelled from the spec: the tagged union LocationReference of section 3. *)
Inductive LocationReference : Type :=
| Address (raw : string)
| Coordinates (lat lon : dec)
| MapsURL (url : string).

(** Modelled from the spec: [extract(text)] of section 4.1; the rules are
    tried in their order, each finding its leftmost match. *)
Definition extract (text : string) : option LocationReference :=
  match find_maps_url None text with
  | Some u => Some (MapsURL u)
  | None =>
      match find_coords None text with
      | Some (lat, lon) => Some (Coordinates lat lon)
      | None =>
          match find_address text with
          | Some a => Some (Address a)
          | None => None
          end
      end
  end.

End Extractor.


Module Orchestrator.

Import Extractor.

(** Modelled from the spec: the Query record of section 3. *)
Record Query : Type := mkQuery { text : string; userId : option string }.

(** Modelled from the spec: how a ResolvedLocation was obtained. *)
Inductive SourceKind : Type := SrcAddress | SrcCoords | SrcUrl.

(** Modelled from the spec: the confidence of a ResolvedLocation. *)
Inductive Confidence : Type := Exact | Approximate.

(** Modelled from the spec: the ResolvedLocation record of section 3. *)
Record ResolvedLocation : Type := mkLoc {
  lat : dec; lon : dec; sourceKind : SourceKind; confidence : Confidence }.

(** Modelled from the spec: precision levels a geocoder reports, coarsest
    first. *)
Inductive Precision : Type := Country | Region | Locality | Street | Rooftop.

(** Modelled from the spec: the order of precision levels. *)
Definition precision_rank (p : Precision) : nat :=
  match p with
  | Country => 0 | Region => 1 | Locality => 2 | Street => 3 | Rooftop => 4
  end.

(** Modelled from the spec: one answer of the geocoding capability. *)
Inductive GeoResult : Type :=
| GeoMatch (la lo : dec) (p : Precision)
| GeoNoMatch
| GeoTimeout.

(** Modelled from the spec: one answer of a tool provider: an output, or a
    transient failure (timeout or 5xx-equivalent). *)
Inductive CallResult : Type := CallOk (out : string) | CallTransient.

(** Modelled from the spec: an entry of the tool registry of section 4.3. *)
Record ToolSpec : Type := mkTool {
  tool_name : string; idempotent : bool; input_ok : string -> bool }.

(** Modelled from the spec: the ToolInvocation record of section 3. *)
Record ToolInvocation : Type := mkInv {
  inv_tool : string; inv_input : string; inv_output : string; inv_seq : nat }.

(** Modelled from the spec: the planner decision of section 4.4. *)
Inductive NextAction : Type := Invoke (tool input : string) | Answer (t : string).

(** Modelled from the spec: the status carried by a FinalEvent. *)
Inductive FinalStatus : Type := StSuccess | StWarning | StError.

(** Modelled from the spec: the StreamEvent union of section 3. *)
Inductive StreamEvent : Type :=
| ToolEvent (tool : string)
| FinalEvent (st : FinalStatus) (result message : option string).

(** Modelled from the spec: the states of an OrchestrationRun where it can
    stop. *)
Inductive RunStatus : Type := Running | Succeeded | Warning | Failed | Cancelled.

Inductive Failure : Type :=
| UnknownTool | ToolInputInvalid | RetriesExhausted | NoUsableAnswer.

(** Modelled from the spec: section 9; the immutable configuration passed
    to a run.  [planner] is the LLM planning capability, [best_answer] the
    best available answer composed from a history when the step limit is
    hit, [tool_provider name input k] the provider's answer to the [k]-th
    attempt of a call, [geocoder addr k] likewise, and [cancelled k] tells
    whether the caller has disconnected at the [k]-th suspension point. *)
Record Env : Type := mkEnv {
  registry : list ToolSpec;
  step_limit : nat;
  planner : Query -> option ResolvedLocation -> list ToolInvocation -> NextAction;
  best_answer : Query -> option ResolvedLocation -> list ToolInvocation -> string;
  tool_provider : string -> string -> nat -> CallResult;
  geocoder : string -> nat -> GeoResult;
  cancelled : nat -> bool }.

(** Modelled from the spec: the default step limit of section 4.4. *)
Definition default_step_limit : nat := 5.

(** Modelled from the spec: the retries of a transient failure (section 5). *)
Definition max_retries : nat := 2.

(** Modelled from the spec: section 3, OrchestrationRun, with the
    observable effects of a run: the stream events, the external tool calls
    and geocoding calls made, and the suspension points passed. *)
Record RunState : Type := mkRun {
  location : option ResolvedLocation;
  history : list ToolInvocation;
  events : list StreamEvent;
  tool_calls : list (string * string);
  geocode_calls : list string;
  suspensions : nat;
  status : RunStatus;
  location_warning : bool;
  reached_limit : bool;
  finalAnswer : option string;
  failure : option Failure }.

(** Modelled from the spec: the state at [Start]. *)
Definition initial : RunState :=
  mkRun None [] [] [] [] 0 Running false false None None.

(** Modelled from the spec: record the resolved location. *)
Definition set_location (l : ResolvedLocation) (st : RunState) : RunState :=
  mkRun (Some l) (history st) (events st) (tool_calls st) (geocode_calls st)
    (suspensions st) (status st) (location_warning st) (reached_limit st)
    (finalAnswer st) (failure st).

(** Modelled from the spec: flag that the location could not be pinned down. *)
Definition set_warning (st : RunState) : RunState :=
  mkRun (location st) (history st) (events st) (tool_calls st) (geocode_calls st)
    (suspensions st) (status st) true (reached_limit st)
    (finalAnswer st) (failure st).

(** Modelled from the spec: flag that the step limit was reached. *)
Definition set_reached_limit (st : RunState) : RunState :=
  mkRun (location st) (history st) (events st) (tool_calls st) (geocode_calls st)
    (suspensions st) (status st) (location_warning st) true
    (finalAnswer st) (failure st).

(** Modelled from the spec: pass one suspension point. *)
Definition tick (st : RunState) : RunState :=
  mkRun (location st) (history st) (events st) (tool_calls st) (geocode_calls st)
    (S (suspensions st)) (status st) (location_warning st) (reached_limit st)
    (finalAnswer st) (failure st).

(** Modelled from the spec: emit one stream event. *)
Definition emit (e : StreamEvent) (st : RunState) : RunState :=
  mkRun (location st) (history st) (app (events st) [e]) (tool_calls st)
    (geocode_calls st) (suspensions st) (status st) (location_warning st)
    (reached_limit st) (finalAnswer st) (failure st).

(** Modelled from the spec: one external tool call. *)
Definition add_tool_call (name inp : string) (st : RunState) : RunState :=
  mkRun (location st) (history st) (events st) (app (tool_calls st) [(name, inp)])
    (geocode_calls st) (suspensions st) (status st) (location_warning st)
    (reached_limit st) (finalAnswer st) (failure st).

(** Modelled from the spec: one external geocoding call. *)
Definition add_geocode_call (addr : string) (st : RunState) : RunState :=
  mkRun (location st) (history st) (events st) (tool_calls st)
    (app (geocode_calls st) [addr]) (suspensions st) (status st)
    (location_warning st) (reached_limit st) (finalAnswer st) (failure st).

(** Modelled from the spec: append a ToolInvocation; its sequence index is
    its position. *)
Definition record (name inp out : string) (st : RunState) : RunState :=
  mkRun (location st)
    (app (history st) [mkInv name inp out (length (history st))])
    (events st) (tool_calls st) (geocode_calls st) (suspensions st) (status st)
    (location_warning st) (reached_limit st) (finalAnswer st) (failure st).

(** Modelled from the spec: enter a terminal state; every terminal state but
    [Cancelled] emits the FinalEvent. *)
Definition terminate (s : RunStatus) (ev : option StreamEvent)
    (answer : option string) (f : option Failure) (st : RunState) : RunState :=
  mkRun (location st) (history st)
    (match ev with Some e => app (events st) [e] | None => events st end)
    (tool_calls st) (geocode_calls st) (suspensions st) s
    (location_warning st) (reached_limit st) answer f.

(** Modelled from the spec: the run is cancelled; no FinalEvent. *)
Definition cancel (st : RunState) : RunState :=
  terminate Cancelled None None None st.

(** Modelled from the spec: the message of an error result. *)
Definition failure_message (f : Failure) : string :=
  match f with
  | UnknownTool => "The planner asked for a tool that does not exist."
  | ToolInputInvalid => "The planner gave a tool an invalid input."
  | RetriesExhausted => "An external service did not answer."
  | NoUsableAnswer => "No usable answer could be produced."
  end.

(** Modelled from the spec: the run fails with an error FinalEvent. *)
Definition fail (f : Failure) (st : RunState) : RunState :=
  terminate Failed (Some (FinalEvent StError None (Some (failure_message f))))
    None (Some f) st.

(** Modelled from the spec: the message when the location could not be
    pinned down. *)
Definition location_message : string :=
  "The location could not be pinned down; the answer is generic.".

(** Modelled from the spec: [Synthesizing]: a non-empty answer ends the run
    in [Succeeded], or in [Warning] when the location could not be resolved;
    an empty one is no usable answer. *)
Definition synthesize (answer : string) (st : RunState) : RunState :=
  match answer with
  | EmptyString => fail NoUsableAnswer st
  | _ =>
      if location_warning st then
        terminate Warning
          (Some (FinalEvent StWarning (Some answer) (Some location_message)))
          (Some answer) None st
      else
        terminate Succeeded (Some (FinalEvent StSuccess (Some answer) None))
          (Some answer) None st
  end.

Section Run.

Variable env : Env.

(** Modelled from the spec: a suspension point: the run goes on unless the
    caller disconnected. *)
Definition suspend (st : RunState) : option RunState :=
  if cancelled env (suspensions st) then None else Some (tick st).

(** Modelled from the spec: how one tool invocation ends. *)
Inductive CallOutcome : Type :=
| Got (out : string) (st : RunState)
| Exhausted (st : RunState)
| CallCancelled (st : RunState).

(** Modelled from the spec: one tool invocation against the provider:
    transient failures are retried, [left] attempts remain, [attempt] is the
    index of this one. *)
Fixpoint call_tool (name inp : string) (attempt left : nat) (st : RunState)
    : CallOutcome :=
  match left with
  | O => Exhausted st
  | S l =>
      match suspend st with
      | None => CallCancelled st
      | Some st1 =>
          let st2 := add_tool_call name inp st1 in
          match tool_provider env name inp attempt with
          | CallOk out => Got out st2
          | CallTransient => call_tool name inp (S attempt) l st2
          end
      end
  end.

(** Modelled from the spec: an observation of the given tool and input. *)
Definition same_call (name inp : string) (i : ToolInvocation) : bool :=
  String.eqb (inv_tool i) name && String.eqb (inv_input i) inp.

(** Modelled from the spec: the run-local history as a cache: the earliest
    observation. *)
Definition cached (name inp : string) (h : list ToolInvocation) : option string :=
  match find (same_call name inp) h with
  | Some i => Some (inv_output i)
  | None => None
  end.

(** Modelled from the spec: the registry entry of a tool. *)
Definition find_tool (name : string) : option ToolSpec :=
  find (fun t => String.eqb (tool_name t) name) (registry env).

(** Modelled from the spec: section 4.4; the [Planning -> AwaitingTool ->
    Planning] loop, [steps_left] tool invocations before the limit. *)
Fixpoint plan_loop (q : Query) (steps_left : nat) (st : RunState) : RunState :=
  match steps_left with
  | O =>
      let st1 := set_reached_limit st in
      match history st1 with
      | [] => fail NoUsableAnswer st1
      | _ :: _ => synthesize (best_answer env q (location st1) (history st1)) st1
      end
  | S n =>
      match suspend st with
      | None => cancel st
      | Some st1 =>
          match planner env q (location st1) (history st1) with
          | Answer t => synthesize t st1
          | Invoke name inp =>
              match find_tool name with
              | None => fail UnknownTool st1
              | Some spec =>
                  if negb (input_ok spec inp) then fail ToolInputInvalid st1
                  else
                    let st2 := emit (ToolEvent name) st1 in
                    match (if idempotent spec then cached name inp (history st2)
                           else None) with
                    | Some out => plan_loop q n (record name inp out st2)
                    | None =>
                        match call_tool name inp 0 (S max_retries) st2 with
                        | Got out st3 => plan_loop q n (record name inp out st3)
                        | Exhausted st3 => fail RetriesExhausted st3
                        | CallCancelled st3 => cancel st3
                        end
                    end
              end
          end
      end
  end.

(** Modelled from the spec: how resolving a location reference ends. *)
Inductive GeoOutcome : Type :=
| GeoResolved (l : ResolvedLocation) (st : RunState)
| GeoFailure (st : RunState)
| GeoCancelled (st : RunState).

(** Modelled from the spec: sections 4.2 and 5; one geocoding call per
    attempt, timeouts retried, coarser than locality rejected. *)
Fixpoint geocode_address (addr : string) (attempt left : nat) (st : RunState)
    : GeoOutcome :=
  match left with
  | O => GeoFailure st
  | S l =>
      match suspend st with
      | None => GeoCancelled st
      | Some st1 =>
          let st2 := add_geocode_call addr st1 in
          match geocoder env addr attempt with
          | GeoMatch la lo p =>
              if Nat.ltb (precision_rank p) (precision_rank Locality)
              then GeoFailure st2
              else GeoResolved
                     (mkLoc la lo SrcAddress
                        (match p with Rooftop => Exact | _ => Approximate end))
                     st2
          | GeoNoMatch => GeoFailure st2
          | GeoTimeout => geocode_address addr (S attempt) l st2
          end
      end
  end.

(** Modelled from the spec: [resolve(ref)] of section 4.2. *)
Definition resolve (ref : LocationReference) (st : RunState) : GeoOutcome :=
  match ref with
  | Coordinates a b => GeoResolved (mkLoc a b SrcCoords Exact) st
  | MapsURL u =>
      match url_coords u with
      | Some (a, b) => GeoResolved (mkLoc a b SrcUrl Exact) st
      | None => GeoFailure st
      end
  | Address a => geocode_address a 0 (S max_retries) st
  end.

(** Modelled from the spec: one orchestration run, [Start] to a terminal
    state. *)
Definition run (q : Query) : RunState :=
  match extract (text q) with
  | None => plan_loop q (step_limit env) initial
  | Some r =>
      match resolve r initial with
      | GeoResolved l st => plan_loop q (step_limit env) (set_location l st)
      | GeoFailure st => plan_loop q (step_limit env) (set_warning st)
      | GeoCancelled st => cancel st
      end
  end.

End Run.

End Orchestrator.


(** Sample configurations of a run, used to evaluate the pipeline. *)
Module Scenarios.

Import Extractor Orchestrator.

Definition nonempty_input (s : string) : bool :=
  match s with EmptyString => false | _ => true end.

(** The three tools of section 4.3. *)
Definition tools : list ToolSpec :=
  [mkTool "geocode" true nonempty_input;
   mkTool "nearby_search" true nonempty_input;
   mkTool "web_search" true nonempty_input].

(** A planner that searches for parks once and then answers. *)
Definition parks_planner (q : Query) (l : option ResolvedLocation)
    (h : list ToolInvocation) : NextAction :=
  match h with
  | [] => Invoke "nearby_search" "park"
  | i :: _ => Answer ("Parks nearby: " ++ inv_output i)
  end.

Definition parks_env : Env :=
  mkEnv tools default_step_limit parks_planner
    (fun _ _ _ => "Parks nearby.")
    (fun _ _ _ => CallOk "Bryant Park")
    (fun _ _ => GeoMatch (mkdec 407484 4) (mkdec (-739857) 4) Street)
    (fun _ => false).

Definition scenario_A : Query :=
  mkQuery "Are there any parks near Empire State Building?" None.

(** The caller disconnects before the first suspension point. *)
Definition disconnected_env : Env :=
  mkEnv tools default_step_limit parks_planner
    (fun _ _ _ => "Parks nearby.")
    (fun _ _ _ => CallOk "Bryant Park")
    (fun _ _ => GeoNoMatch)
    (fun _ => true).

Definition scenario_D : Query := mkQuery "Hospitals around Nowhereville12345" None.

(** No address resolves; the planner still searches and answers. *)
Definition unresolved_env : Env :=
  mkEnv tools default_step_limit parks_planner
    (fun _ _ _ => "Hospitals are usually listed by city.")
    (fun _ _ _ => CallOk "City Hospital")
    (fun _ _ => GeoNoMatch)
    (fun _ => false).

(** A planner that asks for a tool the registry does not have. *)
Definition weather_planner (q : Query) (l : option ResolvedLocation)
    (h : list ToolInvocation) : NextAction :=
  Invoke "weather" "today".

Definition unknown_tool_env : Env :=
  mkEnv tools default_step_limit weather_planner
    (fun _ _ _ => "Hospitals are usually listed by city.")
    (fun _ _ _ => CallOk "none")
    (fun _ _ => GeoNoMatch)
    (fun _ => false).

(** A planner that runs the same web search twice, then answers. *)
Definition repeat_planner (q : Query) (l : option ResolvedLocation)
    (h : list ToolInvocation) : NextAction :=
  match h with
  | [] | [_] => Invoke "web_search" "land use rules"
  | _ => Answer "Zoning allows residential use."
  end.

(** The provider times out on the first attempt and answers on the next. *)
Definition flaky_provider (name inp : string) (attempt : nat) : CallResult :=
  match attempt with O => CallTransient | _ => CallOk "Zoning code R1" end.

Definition retry_env : Env :=
  mkEnv tools default_step_limit repeat_planner
    (fun _ _ _ => "Zoning allows residential use.")
    flaky_provider
    (fun _ _ => GeoNoMatch)
    (fun _ => false).

Definition scenario_C : Query :=
  mkQuery "Can I buy land here? https://www.google.com/maps?q=34.0522,-118.2437" None.

(** The provider answers every attempt. *)
Definition steady_env : Env :=
  mkEnv tools default_step_limit repeat_planner
    (fun _ _ _ => "Zoning allows residential use.")
    (fun _ _ _ => CallOk "Zoning code R1")
    (fun _ _ => GeoNoMatch)
    (fun _ => false).

(** The tools of section 4.3, with the web search registered as not
    idempotent. *)
Definition tools_live_search : list ToolSpec :=
  [mkTool "geocode" true nonempty_input;
   mkTool "nearby_search" true nonempty_input;
   mkTool "web_search" false nonempty_input].

Definition live_search_env : Env :=
  mkEnv tools_live_search default_step_limit repeat_planner
    (fun _ _ _ => "Zoning allows residential use.")
    (fun _ _ _ => CallOk "Zoning code R1")
    (fun _ _ => GeoNoMatch)
    (fun _ => false).

(** The state of [steady_env] on scenario C after its first web search. *)
Definition after_first_search : RunState :=
  mkRun (Some (mkLoc (mkdec 340522 4) (mkdec (-1182437) 4) SrcUrl Exact))
    [mkInv "web_search" "land use rules" "Zoning code R1" 0]
    [ToolEvent "web_search"] [("web_search", "land use rules")] [] 2
    Running false false None None.

(** A planner that never stops searching, and no answer can be composed
    from what it found. *)
Definition endless_planner (q : Query) (l : option ResolvedLocation)
    (h : list ToolInvocation) : NextAction :=
  Invoke "web_search" "land use rules".

Definition no_answer_env : Env :=
  mkEnv tools 1 endless_planner
    (fun _ _ _ => EmptyString)
    (fun _ _ _ => CallOk "Zoning code R1")
    (fun _ _ => GeoNoMatch)
    (fun _ => false).

End Scenarios.


(** What the claims observe of a run. *)
Module Observe.

Import Orchestrator.

(** The FinalEvent status of a terminal run status. *)
Definition final_status_of (s : RunStatus) : option FinalStatus :=
  match s with
  | Succeeded => Some StSuccess
  | Warning => Some StWarning
  | Failed => Some StError
  | Running | Cancelled => None
  end.

Definition tools_only (st : RunState) : Prop :=
  exists names, events st = map ToolEvent names.

(** How a run's events end: a cancelled run has only ToolEvents; any other
    run has ToolEvents and then one FinalEvent of its status. *)
Definition well_ended (st : RunState) : Prop :=
  (status st = Cancelled /\ tools_only st)
  \/ (exists names fs res msg,
        events st = app (map ToolEvent names) [FinalEvent fs res msg]
        /\ final_status_of (status st) = Some fs).

(** The state an outcome of a tool call leaves. *)
Definition call_state (o : CallOutcome) : RunState :=
  match o with Got _ st | Exhausted st | CallCancelled st => st end.

(** An outcome of a tool call with its state mapped. *)
Definition map_call_outcome (f : RunState -> RunState) (o : CallOutcome)
    : CallOutcome :=
  match o with
  | Got out st => Got out (f st)
  | Exhausted st => Exhausted (f st)
  | CallCancelled st => CallCancelled (f st)
  end.

(** The state an outcome of a geocoding attempt leaves. *)
Definition geo_state (o : GeoOutcome) : RunState :=
  match o with GeoResolved _ st | GeoFailure st | GeoCancelled st => st end.

(** The external calls made for one tool and input. *)
Definition count_calls (name inp : string) (c : list (string * string)) : nat :=
  length (filter (fun p => String.eqb (fst p) name && String.eqb (snd p) inp) c).

(** All observations of one tool and input in a history carry one output. *)
Definition agree_on (name inp : string) (h : list ToolInvocation) : Prop :=
  forall i j, In i h -> In j h -> same_call name inp i = true ->
    same_call name inp j = true -> inv_output i = inv_output j.

(** The external calls for one tool and input stay within one retried call,
    a single one when the provider answers at the first attempt. *)
Definition calls_bounded (env : Env) (name inp : string)
    (c : list (string * string)) : Prop :=
  count_calls name inp c <= S max_retries
  /\ (forall out, tool_provider env name inp 0 = CallOk out ->
        count_calls name inp c <= 1).

(** A tool and input called externally is in the history. *)
Definition calls_cached (name inp : string) (h : list ToolInvocation)
    (c : list (string * string)) : Prop :=
  0 < count_calls name inp c -> cached name inp h <> None.

(** The characters of a text around a number. *)
Fixpoint all_ws (s : string) : bool :=
  match s with
  | EmptyString => true
  | String c r => is_js_ws c && all_ws r
  end.

Fixpoint last_char (s : string) : option ascii :=
  match s with
  | EmptyString => None
  | String c r => match last_char r with None => Some c | Some d => Some d end
  end.

(** No digit, dot or minus sign right before a number. *)
Definition may_precede_number (prev : option ascii) : bool :=
  Extractor.number_boundary prev
  && match prev with Some c => negb (Extractor.is_char c 45) | None => true end.

(** No plausible pair starts inside [pre] where the coordinate rule can
    start one (at a number boundary), the rule reading [pre] followed by
    [rest]: a pair starting right after [pre] is then the leftmost one. *)
Fixpoint no_pair_in (prev : option ascii) (pre rest : string) : bool :=
  match pre with
  | EmptyString => true
  | String c p =>
      negb (Extractor.number_boundary prev
            && match Extractor.ppair (String c (p ++ rest)) with
               | Some (a, b, _) => Extractor.plausible a b
               | None => false
               end)
      && no_pair_in (Some c) p rest
  end.

(** A digit, or a dot and a digit, which would extend a number before it. *)
Definition continues_number (s : string) : bool :=
  match s with
  | String c r =>
      Json.is_digit c
      || (Extractor.is_char c 46
          && match r with String d _ => Json.is_digit d | EmptyString => false end)
  | EmptyString => false
  end.

End Observe.


(** The non-streaming endpoint [/api/process-query] of the backend. *)
Module Server.

Import Client Stringify Orchestrator.

(** Modelled from the spec: the status text of a FinalEvent (section 6). *)
Definition status_text (s : FinalStatus) : string :=
  match s with
  | StSuccess => "success"
  | StWarning => "warning"
  | StError => "error"
  end.

(** Modelled from the spec: an optional string member of the response; an
    absent one is left out. *)
Definition opt_member (k : string) (v : option string) : string :=
  match v with
  | Some x => "," ++ quote_json k ++ ":" ++ quote_json x
  | None => EmptyString
  end.

(** Modelled from the spec: section 6, the non-streaming response, one JSON
    object [{status, result?, message?}]. *)
Definition response_body (s : FinalStatus) (result message : option string)
    : string :=
  "{" ++ quote_json "status" ++ ":" ++ quote_json (status_text s)
  ++ opt_member "result" result ++ opt_member "message" message ++ "}".

(** Modelled from the spec: the body the endpoint sends once the run is
    terminal, the run's FinalEvent as one object; a cancelled run, which has
    none, sends nothing. *)
Definition query_response (st : RunState) : option string :=
  match rev (events st) with
  | FinalEvent s r m :: _ => Some (response_body s r m)
  | _ => None
  end.

(** The member [opt_member] writes, as [JSON.parse] reads it back. *)
Definition opt_field (k : string) (v : option string) : list (list Z * Json.json) :=
  match v with Some x => [(Json.units k, Json.JStr (Json.units x))] | None => [] end.

End Server.

(* ================================================================== *)
(** * Proofs: the stream reader *)


Lemma append_empty_r (s : string) : s ++ EmptyString = s.
Proof. induction s as [|c s IH]; simpl; [reflexivity | now rewrite IH]. Qed.

Lemma append_assoc_str (a b c : string) : (a ++ b) ++ c = a ++ (b ++ c).
Proof. induction a as [|x a IH]; simpl; [reflexivity | now rewrite IH]. Qed.

Lemma cons_first_nonempty c ps : cons_first c ps <> [].
Proof. destruct ps; discriminate. Qed.

Lemma split_nn_nonempty (s : string) : split_nn s <> [].
Proof.
  destruct s as [|c [|c' r]]; simpl; try discriminate.
  destruct (is_nl c && is_nl c'); [discriminate | apply cons_first_nonempty].
Qed.

Lemma removelast_cons_ne {A} (a : A) (l : list A) :
  l <> [] -> removelast (a :: l) = a :: removelast l.
Proof. destruct l; [contradiction | reflexivity]. Qed.

Lemma last_cons_ne {A} (a d : A) (l : list A) :
  l <> [] -> last (a :: l) d = last l d.
Proof. destruct l; [contradiction | reflexivity]. Qed.

(** A split with a single piece found no separator. *)
Lemma split_nn_single (r p : string) : split_nn r = [p] -> p = r.
Proof.
  revert p. induction r as [|y r IH]; intros p H; simpl in H.
  - now inversion H.
  - destruct r as [|z t].
    + now inversion H.
    + destruct (is_nl y && is_nl z) eqn:E.
      * pose proof (split_nn_nonempty t).
        inversion H; subst. contradiction.
      * destruct (split_nn (String z t)) as [|q qs] eqn:Es.
        -- exfalso; now apply (split_nn_nonempty (String z t)).
        -- simpl in H. inversion H; subst.
           now rewrite (IH q eq_refl).
Qed.

(** A piece prepended with a code unit that starts no separator with it. *)
Lemma split_nn_cons_no_sep (x y : ascii) (t : string) :
  is_nl x && is_nl y = false ->
  split_nn (String x (String y t)) = cons_first x (split_nn (String y t)).
Proof. intros E. simpl. now rewrite E. Qed.

(** Splitting is incremental: splitting [b ++ c] is splitting [b], keeping
    its last piece open and splitting it again together with [c].  This is
    what makes the reader's buffer work. *)
Lemma split_app (b c : string) :
  split_nn (b ++ c) =
  app (removelast (split_nn b)) (split_nn (last (split_nn b) EmptyString ++ c)).
Proof.
  remember (String.length b) as n eqn:Hn.
  assert (Hle : String.length b <= n) by lia. clear Hn.
  revert b Hle. induction n as [|n IH]; intros b Hle.
  - destruct b; [reflexivity | simpl in Hle; lia].
  - destruct b as [|x [|y r']].
    + reflexivity.
    + reflexivity.
    + simpl in Hle.
      destruct (is_nl x && is_nl y) eqn:E.
      * change (String x (String y r') ++ c) with (String x (String y (r' ++ c))).
        change (split_nn (String x (String y r'))) with
          (if is_nl x && is_nl y then EmptyString :: split_nn r'
           else cons_first x (split_nn (String y r'))).
        simpl. rewrite E.
        rewrite (IH r' ltac:(lia)).
        rewrite removelast_cons_ne, last_cons_ne by apply split_nn_nonempty.
        reflexivity.
      * change (String x (String y r') ++ c) with (String x (String y (r' ++ c))).
        rewrite (split_nn_cons_no_sep x y (r' ++ c) E).
        rewrite (split_nn_cons_no_sep x y r' E).
        change (String y (r' ++ c)) with (String y r' ++ c).
        rewrite (IH (String y r') ltac:(simpl; lia)).
        destruct (split_nn (String y r')) as [|p ps] eqn:Es.
        -- exfalso; now apply (split_nn_nonempty (String y r')).
        -- destruct ps as [|p2 ps].
           ++ apply split_nn_single in Es. subst p. simpl.
              change (String y r' ++ c) with (String y (r' ++ c)).
              now rewrite E.
           ++ reflexivity.
Qed.

(** The last piece of a split contains no separator. *)
Lemma split_nn_last_single (b : string) :
  removelast (split_nn (last (split_nn b) EmptyString)) = [].
Proof.
  pose proof (split_app b EmptyString) as H.
  rewrite append_empty_r, append_empty_r in H.
  pose proof (app_removelast_last EmptyString (split_nn_nonempty b)) as H2.
  rewrite H2 in H at 1.
  apply app_inv_head in H.
  rewrite <- H. reflexivity.
Qed.

Section ReaderFacts.

Variable value : Type.
Variable JSON_parse : string -> option value.

Lemma filter_map_parts_app (ps qs : list string) :
  filter_map_parts JSON_parse (app ps qs) =
  app (filter_map_parts JSON_parse ps) (filter_map_parts JSON_parse qs).
Proof.
  induction ps as [|p ps IH]; simpl; [reflexivity|].
  destruct (process_part JSON_parse p); simpl; now rewrite IH.
Qed.

(** The reader delivers exactly the events of the complete pieces of the
    whole body: all pieces of its split except the last. *)
Lemma read_loop_spec (cs : list string) (buffer : string) :
  removelast (split_nn buffer) = [] ->
  read_loop JSON_parse buffer cs =
  filter_map_parts JSON_parse (removelast (split_nn (buffer ++ join cs))).
Proof.
  revert buffer. induction cs as [|c cs IH]; intros buffer Hb.
  - simpl. rewrite append_empty_r, Hb. reflexivity.
  - simpl.
    rewrite IH by apply split_nn_last_single.
    rewrite <- (append_assoc_str buffer c (join cs)).
    rewrite (split_app (buffer ++ c) (join cs)).
    rewrite removelast_app by apply split_nn_nonempty.
    rewrite filter_map_parts_app. reflexivity.
Qed.

End ReaderFacts.

Lemma process_part_payload {value} (JSON_parse : string -> option value) p :
  process_part JSON_parse p =
  if startsWith (trim p) "data:" then JSON_parse (data_payload p) else None.
Proof.
  unfold process_part, data_payload.
  destruct (startsWith (trim p) "data:"); reflexivity.
Qed.

Lemma split_nn_frame (f r : string) :
  well_separated f = true -> split_nn (f ++ sep ++ r) = f :: split_nn r.
Proof.
  unfold well_separated. intros H. apply negb_true_iff in H.
  induction f as [|x f IH].
  - reflexivity.
  - destruct f as [|y f'].
    + simpl in H. rewrite orb_false_r in H.
      change (String x EmptyString ++ sep ++ r) with
        (String x (String nl (String nl r))).
      rewrite (split_nn_cons_no_sep x nl _ H). reflexivity.
    + simpl in H. apply orb_false_iff in H as [H1 H2].
      change (String x (String y f') ++ sep ++ r) with
        (String x (String y (f' ++ sep ++ r))).
      rewrite (split_nn_cons_no_sep x y _ H1).
      change (String y (f' ++ sep ++ r)) with (String y f' ++ sep ++ r).
      rewrite (IH H2). reflexivity.
Qed.

Lemma split_nn_body (fs : list string) (tail : string) :
  forallb well_separated fs = true ->
  split_nn (body_of fs tail) = app fs (split_nn tail).
Proof.
  unfold body_of. induction fs as [|f fs IH]; intros H; simpl in *.
  - reflexivity.
  - apply andb_true_iff in H as [H1 H2].
    rewrite append_assoc_str, append_assoc_str.
    rewrite (split_nn_frame f _ H1), (IH H2).
    reflexivity.
Qed.

(** The events of a body of frames are those of its frames, followed by
    those of the complete pieces of its tail. *)
Lemma processQueryStream_body {value} (JSON_parse : string -> option value)
    (fs : list string) (tail : string) (cs : list string) :
  forallb well_separated fs = true ->
  join cs = body_of fs tail ->
  processQueryStream JSON_parse cs =
  app (filter_map_parts JSON_parse fs)
      (filter_map_parts JSON_parse (removelast (split_nn tail))).
Proof.
  intros Hw Hj. unfold processQueryStream.
  rewrite read_loop_spec by reflexivity. simpl. rewrite Hj.
  rewrite split_nn_body by exact Hw.
  rewrite removelast_app by apply split_nn_nonempty.
  apply filter_map_parts_app.
Qed.

(* ================================================================== *)
(** * Claims about the client *)

Module ClientClaims.

Import Json Client.

Example parse_number : Json.parse "42" = Some (JNum 42 0).
Proof. reflexivity. Qed.

Example parse_malformed : Json.parse (data_payload frame_malformed) = None.
Proof. vm_compute. reflexivity. Qed.

Example frames_well_separated :
  forallb well_separated [frame_tool; frame_malformed; frame_final] = true.
Proof. vm_compute. reflexivity. Qed.

(** C1: a frame whose payload after [data:] is not valid JSON produces no
    [onEvent] call and no exception, and the frames after it are delivered
    as if it had not been sent, whatever the chunking of the body. *)
Theorem processQueryStream_skips_malformed_json {value}
    (JSON_parse : string -> option value)
    (pre post : list string) (bad tail : string) (cs : list string) :
  forallb well_separated (app pre (bad :: post)) = true ->
  JSON_parse (data_payload bad) = None ->
  join cs = body_of (app pre (bad :: post)) tail ->
  processQueryStream JSON_parse cs =
  processQueryStream JSON_parse [body_of (app pre post) tail]
  /\ processQueryStream JSON_parse cs =
     app (filter_map_parts JSON_parse pre)
         (app (filter_map_parts JSON_parse post)
              (filter_map_parts JSON_parse (removelast (split_nn tail)))).
Proof.
  intros Hw Hbad Hj.
  assert (Hw' : forallb well_separated (app pre post) = true).
  { rewrite forallb_app in Hw |- *. simpl in Hw.
    apply andb_true_iff in Hw as [H1 H2]. apply andb_true_iff in H2 as [_ H3].
    now rewrite H1, H3. }
  assert (Hskip : process_part JSON_parse bad = None).
  { rewrite process_part_payload, Hbad. now destruct (startsWith _ _). }
  rewrite (processQueryStream_body JSON_parse _ tail cs Hw Hj).
  rewrite (processQueryStream_body JSON_parse (app pre post) tail
             [body_of (app pre post) tail] Hw' ltac:(simpl; apply append_empty_r)).
  rewrite !filter_map_parts_app. simpl. rewrite Hskip.
  split; [reflexivity | now rewrite app_assoc].
Qed.

Lemma processQueryStream_skips_malformed_json_witness :
  let cs := ["data: {" ++ lit "ty"; "pe" ++ lit "tool" ++ "X" ++ sep;
             frame_final ++ sep] in
  forallb well_separated
    (app [frame_tool] (frame_malformed :: [frame_final])) = true
  /\ Json.parse (data_payload frame_malformed) = None
  /\ join [frame_tool ++ sep ++ frame_malformed ++ sep; frame_final; sep] =
     body_of (app [frame_tool] (frame_malformed :: [frame_final])) EmptyString
  /\ processQueryStream Json.parse
       [frame_tool ++ sep ++ frame_malformed ++ sep; frame_final; sep] =
     processQueryStream Json.parse
       [body_of (app [frame_tool] [frame_final]) EmptyString]
  /\ processQueryStream Json.parse
       [frame_tool ++ sep ++ frame_malformed ++ sep; frame_final; sep] =
     app (filter_map_parts Json.parse [frame_tool])
         (app (filter_map_parts Json.parse [frame_final])
              (filter_map_parts Json.parse (removelast (split_nn EmptyString)))).
Proof.
  intros cs.
  assert (Hw : forallb well_separated
                 (app [frame_tool] (frame_malformed :: [frame_final])) = true)
    by (vm_compute; reflexivity).
  assert (Hb : Json.parse (data_payload frame_malformed) = None)
    by (vm_compute; reflexivity).
  assert (Hj : join [frame_tool ++ sep ++ frame_malformed ++ sep; frame_final; sep] =
               body_of (app [frame_tool] (frame_malformed :: [frame_final]))
                 EmptyString) by (vm_compute; reflexivity).
  pose proof (processQueryStream_skips_malformed_json Json.parse [frame_tool]
                [frame_final] frame_malformed EmptyString _ Hw Hb Hj) as [H1 H2].
  exact (conj Hw (conj Hb (conj Hj (conj H1 H2)))).
Defined.

(** C2: the [onEvent] sequence depends only on the bytes of the body, not
    on how they are cut into chunks, and it is the sequence of events of the
    complete pieces: the bytes after the last separator are never
    delivered. *)
Theorem processQueryStream_chunking_invariant {value}
    (JSON_parse : string -> option value) (cs1 cs2 : list string) :
  join cs1 = join cs2 ->
  processQueryStream JSON_parse cs1 = processQueryStream JSON_parse cs2
  /\ forall (complete : list string) (tail : string),
       split_nn (join cs1) = app complete [tail] ->
       processQueryStream JSON_parse cs1 = filter_map_parts JSON_parse complete.
Proof.
  intros Hj.
  assert (Hspec : forall cs, processQueryStream JSON_parse cs =
            filter_map_parts JSON_parse (removelast (split_nn (join cs)))).
  { intros cs. unfold processQueryStream. now rewrite read_loop_spec. }
  split.
  - now rewrite !Hspec, Hj.
  - intros complete tail Hs. rewrite Hspec, Hs, removelast_last. reflexivity.
Qed.

Lemma processQueryStream_chunking_invariant_witness :
  join [frame_tool ++ sep ++ "da"; "ta: 7" ++ String nl EmptyString;
        String nl EmptyString ++ "data: 8"] =
  join [frame_tool ++ sep ++ "data: 7" ++ sep ++ "data: 8"]
  /\ processQueryStream Json.parse
       [frame_tool ++ sep ++ "da"; "ta: 7" ++ String nl EmptyString;
        String nl EmptyString ++ "data: 8"] =
     processQueryStream Json.parse
       [frame_tool ++ sep ++ "data: 7" ++ sep ++ "data: 8"]
  /\ processQueryStream Json.parse
       [frame_tool ++ sep ++ "da"; "ta: 7" ++ String nl EmptyString;
        String nl EmptyString ++ "data: 8"] =
     filter_map_parts Json.parse [frame_tool; "data: 7"].
Proof.
  assert (Hj : join [frame_tool ++ sep ++ "da"; "ta: 7" ++ String nl EmptyString;
                     String nl EmptyString ++ "data: 8"] =
               join [frame_tool ++ sep ++ "data: 7" ++ sep ++ "data: 8"])
    by (vm_compute; reflexivity).
  destruct (processQueryStream_chunking_invariant Json.parse _ _ Hj) as [H1 H2].
  refine (conj Hj (conj H1 _)).
  apply (H2 [frame_tool; "data: 7"] "data: 8"). vm_compute. reflexivity.
Defined.

(** C3 as stated fails: the reader does not check the shape of what it
    parses.  The frame [data: 42] is passed to [onEvent] as the number 42,
    which is not a streaming event of either form. *)
Lemma processQueryStream_accepts_any_json :
  processQueryStream_json [frame_number ++ sep] = [JNum 42 0]
  /\ spec_stream_event (JNum 42 0) = false.
Proof. split; vm_compute; reflexivity. Qed.

(** C3 amended: for a body of well-separated frames, [onEvent] is called,
    in frame order, once for each frame whose trimmed text starts with
    [data:] and whose payload [JSON.parse] accepts, with the parsed value
    whatever its shape; every other frame is skipped. *)
Theorem processQueryStream_delivers_parsed_frames (fs cs : list string) :
  forallb well_separated fs = true ->
  join cs = body_of fs EmptyString ->
  processQueryStream_json cs = delivered fs.
Proof.
  intros Hw Hj. unfold processQueryStream_json.
  rewrite (processQueryStream_body Json.parse fs EmptyString cs Hw Hj).
  simpl. rewrite app_nil_r. clear Hj cs.
  induction fs as [|f fs IH]; simpl in *; [reflexivity|].
  apply andb_true_iff in Hw as [_ Hw].
  rewrite process_part_payload.
  destruct (startsWith (trim f) "data:"); [|exact (IH Hw)].
  destruct (Json.parse (data_payload f)); [f_equal|]; exact (IH Hw).
Qed.

Lemma processQueryStream_delivers_parsed_frames_witness :
  forallb well_separated [frame_tool; frame_number; frame_final] = true
  /\ join [frame_tool ++ sep ++ frame_number; sep ++ frame_final ++ sep] =
     body_of [frame_tool; frame_number; frame_final] EmptyString
  /\ processQueryStream_json
       [frame_tool ++ sep ++ frame_number; sep ++ frame_final ++ sep] =
     delivered [frame_tool; frame_number; frame_final].
Proof.
  assert (Hw : forallb well_separated [frame_tool; frame_number; frame_final] = true)
    by (vm_compute; reflexivity).
  assert (Hj : join [frame_tool ++ sep ++ frame_number; sep ++ frame_final ++ sep] =
               body_of [frame_tool; frame_number; frame_final] EmptyString)
    by (vm_compute; reflexivity).
  exact (conj Hw (conj Hj (processQueryStream_delivers_parsed_frames _ _ Hw Hj))).
Defined.

End ClientClaims.

(* ================================================================== *)
(** * Claims about the pipeline *)

Module OrchestratorClaims.

Import Extractor Orchestrator Scenarios Observe.

Section Shape.

Variable env : Env.
Variable q : Query.

Lemma fail_well_ended f st : tools_only st -> well_ended (fail f st).
Proof.
  intros [names H]. right. do 4 eexists. simpl. rewrite H. split; reflexivity.
Qed.

Lemma cancel_well_ended st : tools_only st -> well_ended (cancel st).
Proof. intros H. left. split; [reflexivity | exact H]. Qed.

Lemma synthesize_well_ended t st : tools_only st -> well_ended (synthesize t st).
Proof.
  intros Ht. unfold synthesize. destruct t as [|c t].
  - now apply fail_well_ended.
  - destruct Ht as [names H]. right.
    destruct (location_warning st); do 4 eexists; simpl; rewrite H;
      split; reflexivity.
Qed.

Lemma call_tool_events name inp attempt left st :
  events (call_state (call_tool env name inp attempt left st)) = events st.
Proof.
  revert attempt st. induction left as [|l IH]; intros attempt st; simpl.
  - reflexivity.
  - unfold suspend. destruct (cancelled env (suspensions st)); simpl; [reflexivity|].
    destruct (tool_provider env name inp attempt); simpl; [reflexivity|].
    rewrite IH. reflexivity.
Qed.

Lemma plan_loop_well_ended n st :
  tools_only st -> well_ended (plan_loop env q n st).
Proof.
  revert st. induction n as [|n IH]; intros st Ht; cbn [plan_loop].
  - destruct (history (set_reached_limit st)).
    + now apply fail_well_ended.
    + now apply synthesize_well_ended.
  - unfold suspend. destruct (cancelled env (suspensions st)).
    + now apply cancel_well_ended.
    + assert (Ht1 : tools_only (tick st)) by exact Ht.
      destruct (planner env q (location (tick st)) (history (tick st))) as [name inp|t].
      * destruct (find_tool env name) as [spec|].
        2: now apply fail_well_ended.
        destruct (negb (input_ok spec inp)).
        { now apply fail_well_ended. }
        assert (Ht2 : tools_only (emit (ToolEvent name) (tick st))).
        { destruct Ht1 as [names H]. exists (app names [name]).
          change (events (emit (ToolEvent name) (tick st))) with
            (app (events (tick st)) [ToolEvent name]).
          rewrite H, map_app. reflexivity. }
        destruct (if idempotent spec then _ else None) as [out|].
        -- apply IH. exact Ht2.
        -- pose proof (call_tool_events name inp 0 (S max_retries)
                         (emit (ToolEvent name) (tick st))) as He.
           destruct (call_tool env name inp 0 (S max_retries) _) as [out st3|st3|st3];
             cbn [call_state] in He.
           ++ apply IH. destruct Ht2 as [names H]. exists names.
              change (events (record name inp out st3)) with (events st3). congruence.
           ++ apply fail_well_ended. destruct Ht2 as [names H]. exists names. congruence.
           ++ apply cancel_well_ended. destruct Ht2 as [names H]. exists names. congruence.
      * now apply synthesize_well_ended.
Qed.

Lemma geocode_address_events addr attempt left st :
  events (geo_state (geocode_address env addr attempt left st)) = events st.
Proof.
  revert attempt st. induction left as [|l IH]; intros attempt st; simpl.
  - reflexivity.
  - unfold suspend. destruct (cancelled env (suspensions st)); simpl; [reflexivity|].
    destruct (geocoder env addr attempt) as [la lo p| |]; simpl.
    + destruct (Nat.ltb _ _); reflexivity.
    + reflexivity.
    + rewrite IH. reflexivity.
Qed.

Lemma resolve_events r st :
  events (geo_state (resolve env r st)) = events st.
Proof.
  destruct r as [a|a b|u]; unfold resolve.
  - apply geocode_address_events.
  - reflexivity.
  - destruct (url_coords u) as [[a b]|]; reflexivity.
Qed.

End Shape.

(** C5 as stated fails: when the caller disconnects before the FinalEvent,
    the run is cancelled and emits no FinalEvent at all. *)
Lemma cancelled_run_has_no_final_event :
  events (run disconnected_env scenario_A) = []
  /\ status (run disconnected_env scenario_A) = Cancelled.
Proof. split; vm_compute; reflexivity. Qed.

(** C5 amended: every run that is not cancelled emits zero or more
    ToolEvents followed by exactly one FinalEvent, last, whose status is the
    run's terminal status; a cancelled run emits ToolEvents only. *)
Theorem run_events_well_ended (env : Env) (q : Query) :
  (status (run env q) = Cancelled /\ tools_only (run env q))
  \/ (exists names fs res msg,
        events (run env q) = app (map ToolEvent names) [FinalEvent fs res msg]
        /\ final_status_of (status (run env q)) = Some fs).
Proof.
  fold (well_ended (run env q)).
  assert (H0 : tools_only initial) by (exists []; reflexivity).
  unfold run. destruct (extract (text q)) as [r|].
  - pose proof (resolve_events env r initial) as He.
    destruct (resolve env r initial) as [l st|st|st]; simpl in He.
    + apply plan_loop_well_ended. exists []. simpl. exact He.
    + apply plan_loop_well_ended. exists []. simpl. exact He.
    + apply cancel_well_ended. exists []. exact He.
  - now apply plan_loop_well_ended.
Qed.

Section Warning.

Variable env : Env.
Variable q : Query.

Lemma suspend_set_warning st :
  suspend env (set_warning st) = option_map set_warning (suspend env st).
Proof. unfold suspend. simpl. destruct (cancelled env (suspensions st)); reflexivity. Qed.

Lemma call_tool_set_warning name inp attempt left st :
  call_tool env name inp attempt left (set_warning st) =
  map_call_outcome set_warning (call_tool env name inp attempt left st).
Proof.
  revert attempt st. induction left as [|l IH]; intros attempt st; [reflexivity|].
  cbn [call_tool]. rewrite suspend_set_warning.
  destruct (suspend env st) as [st1|]; [|reflexivity]. simpl.
  destruct (tool_provider env name inp attempt); [reflexivity|].
  apply (IH (S attempt) (add_tool_call name inp st1)).
Qed.

Lemma call_tool_keeps_warning name inp attempt left st :
  location_warning (call_state (call_tool env name inp attempt left st)) =
  location_warning st.
Proof.
  revert attempt st. induction left as [|l IH]; intros attempt st; [reflexivity|].
  cbn [call_tool]. unfold suspend.
  destruct (cancelled env (suspensions st)); [reflexivity|].
  destruct (tool_provider env name inp attempt); [reflexivity|].
  rewrite IH. reflexivity.
Qed.

Lemma location_set_warning st : location (set_warning st) = location st.
Proof. reflexivity. Qed.

Lemma history_set_warning st : history (set_warning st) = history st.
Proof. reflexivity. Qed.

Lemma emit_set_warning e st : emit e (set_warning st) = set_warning (emit e st).
Proof. reflexivity. Qed.

(** The warning flag never decides whether planning fails. *)
Lemma plan_loop_failure_set_warning n st :
  failure (plan_loop env q n (set_warning st)) = failure (plan_loop env q n st).
Proof.
  revert st. induction n as [|n IH]; intros st; cbn [plan_loop].
  - change (history (set_reached_limit (set_warning st))) with (history st).
    change (location (set_reached_limit (set_warning st))) with (location st).
    change (history (set_reached_limit st)) with (history st).
    change (location (set_reached_limit st)) with (location st).
    destruct (history st); [reflexivity|].
    unfold synthesize.
    destruct (best_answer env q (location st) (t :: l)); [reflexivity|].
    change (location_warning (set_reached_limit (set_warning st))) with true.
    destruct (location_warning (set_reached_limit st)); reflexivity.
  - rewrite suspend_set_warning.
    destruct (suspend env st) as [st1|]; [|reflexivity].
    cbn [option_map]. rewrite (location_set_warning st1), (history_set_warning st1).
    destruct (planner env q (location st1) (history st1)) as [name inp|t].
    + destruct (find_tool env name) as [spec|]; [|reflexivity].
      destruct (negb (input_ok spec inp)); [reflexivity|].
      rewrite (emit_set_warning (ToolEvent name) st1),
        (history_set_warning (emit (ToolEvent name) st1)).
      destruct (if idempotent spec then _ else None) as [out|].
      * exact (IH (record name inp out (emit (ToolEvent name) st1))).
      * rewrite call_tool_set_warning.
        destruct (call_tool env name inp 0 (S max_retries) _) as [out st3|st3|st3];
          simpl.
        -- exact (IH (record name inp out st3)).
        -- reflexivity.
        -- reflexivity.
    + unfold synthesize. destruct t; [reflexivity|].
      destruct (location_warning (set_warning st1)), (location_warning st1);
        reflexivity.
Qed.

(** Every planning loop ends by cancelling, failing or synthesizing, in a
    state that keeps the warning flag and has only ToolEvents. *)
Lemma plan_loop_exit n st :
  exists st',
    location_warning st' = location_warning st
    /\ (tools_only st -> tools_only st')
    /\ (plan_loop env q n st = cancel st'
        \/ (exists f, plan_loop env q n st = fail f st')
        \/ (exists t, plan_loop env q n st = synthesize t st')).
Proof.
  revert st. induction n as [|n IH]; intros st; cbn [plan_loop].
  - exists (set_reached_limit st). split; [reflexivity|]. split; [exact (fun H => H)|].
    destruct (history (set_reached_limit st)); [right; left | right; right]; eexists;
      reflexivity.
  - unfold suspend. destruct (cancelled env (suspensions st)).
    { exists st. split; [reflexivity|]. split; [exact (fun H => H)|]. now left. }
    destruct (planner env q (location (tick st)) (history (tick st))) as [name inp|t].
    2: { exists (tick st). split; [reflexivity|]. split; [exact (fun H => H)|].
         right; right. eexists; reflexivity. }
    destruct (find_tool env name) as [spec|].
    2: { exists (tick st). split; [reflexivity|]. split; [exact (fun H => H)|].
         right; left. eexists; reflexivity. }
    destruct (negb (input_ok spec inp)).
    { exists (tick st). split; [reflexivity|]. split; [exact (fun H => H)|].
      right; left. eexists; reflexivity. }
    assert (Ht : tools_only st -> tools_only (emit (ToolEvent name) (tick st))).
    { intros [names H]. exists (app names [name]).
      change (events (emit (ToolEvent name) (tick st))) with
        (app (events st) [ToolEvent name]).
      rewrite H, map_app. reflexivity. }
    destruct (if idempotent spec then _ else None) as [out|].
    + destruct (IH (record name inp out (emit (ToolEvent name) (tick st))))
        as (st' & Hw & Ht' & Hx).
      exists st'. split; [exact Hw|]. split; [|exact Hx].
      intros H. apply Ht'. exact (Ht H).
    + pose proof (call_tool_events env name inp 0 (S max_retries)
                    (emit (ToolEvent name) (tick st))) as He.
      pose proof (call_tool_keeps_warning name inp 0 (S max_retries)
                    (emit (ToolEvent name) (tick st))) as Hw.
      destruct (call_tool env name inp 0 (S max_retries) _) as [out st3|st3|st3];
        cbn [call_state] in He, Hw.
      * destruct (IH (record name inp out st3)) as (st' & Hw' & Ht' & Hx).
        exists st'. split; [rewrite Hw'; exact Hw|]. split; [|exact Hx].
        intros H. apply Ht'. destruct (Ht H) as [names Hn]. exists names.
        change (events (record name inp out st3)) with (events st3). congruence.
      * exists st3. split; [exact Hw|]. split.
        -- intros H. destruct (Ht H) as [names Hn]. exists names. congruence.
        -- right; left. eexists; reflexivity.
      * exists st3. split; [exact Hw|]. split.
        -- intros H. destruct (Ht H) as [names Hn]. exists names. congruence.
        -- now left.
Qed.

Lemma plan_loop_failed_iff n st :
  status (plan_loop env q n st) = Failed <-> failure (plan_loop env q n st) <> None.
Proof.
  destruct (plan_loop_exit n st) as (st' & _ & _ & [H | [[f H] | [t H]]]);
    rewrite H.
  - simpl. split; [discriminate | intros C; now contradiction C].
  - simpl. split; [discriminate | reflexivity].
  - unfold synthesize. destruct t.
    + simpl. split; [discriminate | reflexivity].
    + destruct (location_warning st'); simpl;
        (split; [discriminate | intros C; now contradiction C]).
Qed.

End Warning.

(** C6 as stated fails: a run whose geocoding fails can still end in
    [error], when the planner later asks for a tool that does not exist. *)
Lemma geocode_miss_then_unknown_tool_fails :
  extract (text scenario_D) = Some (Address "Nowhereville12345")
  /\ geocoder unknown_tool_env "Nowhereville12345" 0 = GeoNoMatch
  /\ status (run unknown_tool_env scenario_D) = Failed
  /\ failure (run unknown_tool_env scenario_D) = Some UnknownTool.
Proof. repeat split; vm_compute; reflexivity. Qed.

(** C6 amended: when geocoding the extracted reference fails, the run ends
    in [Warning] with a non-empty answer and the location message, or it is
    cancelled, or it fails; it fails only when the same planning with the
    location merely unknown fails as well, so never for the geocode miss. *)
Theorem run_geocode_failure_warns (env : Env) (q : Query)
    (r : LocationReference) (st : RunState) :
  extract (text q) = Some r ->
  resolve env r initial = GeoFailure st ->
  (status (run env q) = Warning
   /\ exists t names, t <> EmptyString
        /\ finalAnswer (run env q) = Some t
        /\ events (run env q) =
           app (map ToolEvent names)
               [FinalEvent StWarning (Some t) (Some location_message)])
  \/ (status (run env q) = Failed
      /\ status (plan_loop env q (step_limit env) st) = Failed)
  \/ status (run env q) = Cancelled.
Proof.
  intros Hx Hr.
  assert (Hrun : run env q = plan_loop env q (step_limit env) (set_warning st)).
  { unfold run. rewrite Hx, Hr. reflexivity. }
  assert (Hev : tools_only (set_warning st)).
  { pose proof (resolve_events env r initial) as He. rewrite Hr in He.
    exists []. exact He. }
  rewrite Hrun.
  destruct (plan_loop_exit env q (step_limit env) (set_warning st))
    as (st' & Hw & Ht & Hcase).
  simpl in Hw.
  assert (Hfail : status (plan_loop env q (step_limit env) (set_warning st)) = Failed ->
                  status (plan_loop env q (step_limit env) st) = Failed).
  { intros H. apply plan_loop_failed_iff in H. apply plan_loop_failed_iff.
    now rewrite <- plan_loop_failure_set_warning. }
  destruct Hcase as [H | [[f H] | [t H]]].
  - right; right. rewrite H. reflexivity.
  - right; left. split; [rewrite H; reflexivity|]. apply Hfail. rewrite H. reflexivity.
  - destruct t as [|c t].
    + right; left. split; [rewrite H; reflexivity|]. apply Hfail. rewrite H. reflexivity.
    + left. rewrite H. unfold synthesize. rewrite Hw. simpl.
      split; [reflexivity|].
      destruct (Ht Hev) as [names Hn].
      exists (String c t), names. split; [discriminate|]. split; [reflexivity|].
      rewrite Hn. reflexivity.
Qed.

Lemma run_geocode_failure_warns_witness :
  extract (text scenario_D) = Some (Address "Nowhereville12345")
  /\ resolve unresolved_env (Address "Nowhereville12345") initial =
     GeoFailure (geo_state (resolve unresolved_env (Address "Nowhereville12345") initial))
  /\ status (run unresolved_env scenario_D) = Warning.
Proof.
  assert (Hx : extract (text scenario_D) = Some (Address "Nowhereville12345"))
    by (vm_compute; reflexivity).
  assert (Hr : resolve unresolved_env (Address "Nowhereville12345") initial =
               GeoFailure (geo_state (resolve unresolved_env
                                        (Address "Nowhereville12345") initial)))
    by (vm_compute; reflexivity).
  pose proof (run_geocode_failure_warns unresolved_env scenario_D _ _ Hx Hr) as H.
  refine (conj Hx (conj Hr _)).
  destruct H as [[Hs _] | [[Hs _] | Hs]]; [exact Hs | |];
    exfalso; revert Hs; vm_compute; discriminate.
Defined.


Open Scope nat_scope.

Section Idempotence.

Variable env : Env.
Variable q : Query.

Lemma count_calls_app name inp c1 c2 :
  count_calls name inp (app c1 c2) = count_calls name inp c1 + count_calls name inp c2.
Proof. unfold count_calls. now rewrite filter_app, length_app. Qed.

Lemma count_calls_repeat name inp name' inp' k :
  count_calls name inp (repeat (name', inp') k) =
  if String.eqb name' name && String.eqb inp' inp then k else 0.
Proof.
  unfold count_calls. induction k as [|k IH]; simpl.
  - now destruct (String.eqb name' name && String.eqb inp' inp).
  - destruct (String.eqb name' name && String.eqb inp' inp); simpl; now rewrite IH.
Qed.

Lemma same_call_true name inp i :
  same_call name inp i = true <-> inv_tool i = name /\ inv_input i = inp.
Proof.
  unfold same_call. rewrite andb_true_iff, !String.eqb_eq. reflexivity.
Qed.

Lemma find_app_some {A} (f : A -> bool) l1 l2 x :
  find f l1 = Some x -> find f (app l1 l2) = Some x.
Proof.
  induction l1 as [|a l1 IH]; simpl; [discriminate|].
  destruct (f a); [exact (fun H => H) | exact IH].
Qed.

Lemma cached_app name inp h x :
  cached name inp h <> None -> cached name inp (app h [x]) <> None.
Proof.
  unfold cached. destruct (find (same_call name inp) h) as [i|] eqn:E;
    [|now intros C; contradiction C].
  rewrite (find_app_some _ _ _ _ E). discriminate.
Qed.

Lemma cached_last name inp h out k :
  cached name inp (app h [mkInv name inp out k]) <> None.
Proof.
  unfold cached. destruct (find (same_call name inp) (app h _)) eqn:E;
    [discriminate|].
  pose proof (find_none _ _ E (mkInv name inp out k)) as H.
  rewrite in_app_iff in H. simpl in H.
  assert (Hs : same_call name inp (mkInv name inp out k) = true)
    by (apply same_call_true; split; reflexivity).
  rewrite H in Hs; [discriminate | right; now left].
Qed.

(** A tool call makes one external call per attempt, the history untouched. *)
Lemma call_tool_calls name inp attempt left st :
  history (call_state (call_tool env name inp attempt left st)) = history st
  /\ exists k,
       tool_calls (call_state (call_tool env name inp attempt left st)) =
       app (tool_calls st) (repeat (name, inp) k)
       /\ k <= left
       /\ (forall out, tool_provider env name inp attempt = CallOk out -> k <= 1).
Proof.
  revert attempt st. induction left as [|l IH]; intros attempt st.
  - split; [reflexivity|]. exists 0. rewrite app_nil_r. repeat split; intros; lia.
  - cbn [call_tool]. unfold suspend.
    destruct (cancelled env (suspensions st)).
    { split; [reflexivity|]. exists 0. rewrite app_nil_r.
      repeat split; intros; lia. }
    destruct (tool_provider env name inp attempt) as [o|] eqn:Ep.
    + split; [reflexivity|]. exists 1. repeat split; intros; lia.
    + destruct (IH (S attempt) (add_tool_call name inp (tick st)))
        as [Hh [k [Hc [Hk _]]]].
      split; [exact Hh|]. exists (S k). split.
      * rewrite Hc. simpl. rewrite <- app_assoc. reflexivity.
      * split; [lia|]. intros out C. discriminate C.
Qed.

Lemma synthesize_keeps t st :
  history (synthesize t st) = history st /\ tool_calls (synthesize t st) = tool_calls st
  /\ location (synthesize t st) = location st
  /\ reached_limit (synthesize t st) = reached_limit st.
Proof.
  unfold synthesize. destruct t; [repeat split|].
  destruct (location_warning st); repeat split.
Qed.

Lemma pair_eq_dec_gen (name inp name' inp' : string) :
  (name' = name /\ inp' = inp) \/ (name' <> name \/ inp' <> inp).
Proof.
  destruct (String.eqb_spec name' name), (String.eqb_spec inp' inp); tauto.
Qed.

Lemma count_calls_mono name inp c d :
  count_calls name inp c <= count_calls name inp (app c d).
Proof. rewrite count_calls_app. lia. Qed.

Lemma cached_app_other name inp h name' inp' out k :
  (name' <> name \/ inp' <> inp) ->
  cached name inp (app h [mkInv name' inp' out k]) = cached name inp h.
Proof.
  intros Hne. unfold cached. induction h as [|i h IH]; simpl.
  - replace (same_call name inp (mkInv name' inp' out k)) with false; [reflexivity|].
    symmetry. apply not_true_iff_false. intros Hs. apply same_call_true in Hs.
    simpl in Hs. destruct Hs as [-> ->]. destruct Hne as [C | C]; now apply C.
  - destruct (same_call name inp i); [reflexivity | exact IH].
Qed.

(** A call that gets an answer made at least one external call. *)
Lemma call_tool_got_called name inp attempt left st out st3 :
  call_tool env name inp attempt left st = Got out st3 ->
  0 < count_calls name inp (tool_calls st3).
Proof.
  revert attempt st. induction left as [|l IH]; intros attempt st; [discriminate|].
  cbn [call_tool]. unfold suspend. destruct (cancelled env (suspensions st));
    [discriminate|].
  destruct (tool_provider env name inp attempt).
  - intros H. injection H as _ <-. cbn [add_tool_call tool_calls tick].
    rewrite count_calls_app. unfold count_calls at 2. simpl.
    rewrite !String.eqb_refl. simpl. lia.
  - apply IH.
Qed.

(** An observation of a tool and input in the history comes with an external
    call for them. *)
Lemma plan_loop_called name inp n st :
  (cached name inp (history st) <> None -> 0 < count_calls name inp (tool_calls st)) ->
  cached name inp (history (plan_loop env q n st)) <> None ->
  0 < count_calls name inp (tool_calls (plan_loop env q n st)).
Proof.
  revert st. induction n as [|n IH]; intros st Hc; cbn [plan_loop].
  - destruct (history (set_reached_limit st)).
    + exact Hc.
    + destruct (synthesize_keeps (best_answer env q (location (set_reached_limit st))
                                    (t :: l)) (set_reached_limit st))
        as (E1 & E2 & _). rewrite E1, E2. exact Hc.
  - unfold suspend. destruct (cancelled env (suspensions st)); [exact Hc|].
    destruct (planner env q (location (tick st)) (history (tick st))) as [name' inp'|t].
    2: { destruct (synthesize_keeps t (tick st)) as (E1 & E2 & _).
         rewrite E1, E2. exact Hc. }
    destruct (find_tool env name') as [spec'|]; [|exact Hc].
    destruct (negb (input_ok spec' inp')); [exact Hc|].
    set (st2 := emit (ToolEvent name') (tick st)).
    assert (H2h : history st2 = history st) by reflexivity.
    assert (H2c : tool_calls st2 = tool_calls st) by reflexivity.
    destruct (if idempotent spec' then cached name' inp' (history st2) else None)
      as [out|] eqn:Ec.
    + apply IH. cbn [record history tool_calls]. rewrite H2h, H2c.
      destruct (pair_eq_dec_gen name inp name' inp') as [[-> ->] | Hne].
      * intros _. apply Hc. rewrite H2h in Ec.
        destruct (idempotent spec'); [rewrite Ec; discriminate | discriminate Ec].
      * rewrite cached_app_other by exact Hne. exact Hc.
    + destruct (call_tool_calls name' inp' 0 (S max_retries) st2)
        as [Hh [k [Hk _]]].
      rewrite H2h in Hh. rewrite H2c in Hk.
      assert (Hm : cached name inp (history st) <> None ->
                   0 < count_calls name inp (tool_calls
                         (call_state (call_tool env name' inp' 0 (S max_retries) st2)))).
      { intros H. rewrite Hk. pose proof (count_calls_mono name inp (tool_calls st)
          (repeat (name', inp') k)). specialize (Hc H). lia. }
      destruct (call_tool env name' inp' 0 (S max_retries) st2) as [out st3|st3|st3]
        eqn:Ecall; cbn [call_state] in Hh, Hk, Hm.
      * apply IH. cbn [record history tool_calls]. rewrite Hh.
        destruct (pair_eq_dec_gen name inp name' inp') as [[-> ->] | Hne].
        -- intros _. exact (call_tool_got_called _ _ _ _ _ _ _ Ecall).
        -- rewrite cached_app_other by exact Hne. exact Hm.
      * cbn [fail terminate history tool_calls]. rewrite Hh. exact Hm.
      * cbn [cancel terminate history tool_calls]. rewrite Hh. exact Hm.
Qed.

Section Tool.

Variables (name inp : string) (spec : ToolSpec).
Hypothesis Hfind : find_tool env name = Some spec.
Hypothesis Hidem : idempotent spec = true.

Lemma agree_on_new h out k :
  cached name inp h = None -> agree_on name inp (app h [mkInv name inp out k]).
Proof.
  intros Hc i j Hi Hj Si Sj. unfold cached in Hc.
  destruct (find (same_call name inp) h) eqn:E; [discriminate|].
  pose proof (find_none _ _ E) as Hn.
  apply in_app_iff in Hi, Hj.
  destruct Hi as [Hi | [<- | []]];
    [rewrite (Hn i Hi) in Si; discriminate|].
  destruct Hj as [Hj | [<- | []]];
    [rewrite (Hn j Hj) in Sj; discriminate|].
  reflexivity.
Qed.

Lemma agree_on_other h name' inp' out k :
  agree_on name inp h ->
  (name' <> name \/ inp' <> inp) ->
  agree_on name inp (app h [mkInv name' inp' out k]).
Proof.
  intros Ha Hne i j Hi Hj Si Sj.
  assert (Hx : forall x, In x (app h [mkInv name' inp' out k]) ->
               same_call name inp x = true -> In x h).
  { intros x Hx Sx. apply in_app_iff in Hx.
    destruct Hx as [Hx | [<- | []]]; [exact Hx|].
    apply same_call_true in Sx. simpl in Sx. destruct Sx as [-> ->].
    destruct Hne as [C | C]; now contradiction C. }
  exact (Ha i j (Hx i Hi Si) (Hx j Hj Sj) Si Sj).
Qed.

Lemma agree_on_hit h out k :
  agree_on name inp h -> cached name inp h = Some out ->
  agree_on name inp (app h [mkInv name inp out k]).
Proof.
  intros Ha Hc. unfold cached in Hc.
  destruct (find (same_call name inp) h) as [w|] eqn:E; [|discriminate].
  injection Hc as <-. apply find_some in E. destruct E as [Hw Sw].
  assert (Hx : forall x, In x (app h [mkInv name inp (inv_output w) k]) ->
               same_call name inp x = true -> inv_output x = inv_output w).
  { intros x Hx Sx. apply in_app_iff in Hx.
    destruct Hx as [Hx | [<- | []]]; [exact (Ha x w Hx Hw Sx Sw) | reflexivity]. }
  intros i j Hi Hj Si Sj. rewrite (Hx i Hi Si), (Hx j Hj Sj). reflexivity.
Qed.

Lemma pair_eq_dec name' inp' :
  (name' = name /\ inp' = inp) \/ (name' <> name \/ inp' <> inp).
Proof.
  destruct (String.eqb_spec name' name), (String.eqb_spec inp' inp); tauto.
Qed.

(** The invariant of idempotent calls holds along the planning loop. *)
Lemma plan_loop_idempotent n st :
  agree_on name inp (history st) ->
  calls_bounded env name inp (tool_calls st) ->
  calls_cached name inp (history st) (tool_calls st) ->
  agree_on name inp (history (plan_loop env q n st))
  /\ calls_bounded env name inp (tool_calls (plan_loop env q n st)).
Proof.
  revert st. induction n as [|n IH]; intros st Ha Hb Hc; cbn [plan_loop].
  - destruct (history (set_reached_limit st)).
    + split; assumption.
    + destruct (synthesize_keeps (best_answer env q (location (set_reached_limit st))
                                    (t :: l)) (set_reached_limit st))
        as (E1 & E2 & _). rewrite E1, E2. split; assumption.
  - unfold suspend. destruct (cancelled env (suspensions st)); [split; assumption|].
    destruct (planner env q (location (tick st)) (history (tick st))) as [name' inp'|t].
    2: { destruct (synthesize_keeps t (tick st)) as (E1 & E2 & _).
         rewrite E1, E2. split; assumption. }
    destruct (find_tool env name') as [spec'|] eqn:Ef; [|split; assumption].
    destruct (negb (input_ok spec' inp')); [split; assumption|].
    set (st2 := emit (ToolEvent name') (tick st)).
    assert (H2h : history st2 = history st) by reflexivity.
    assert (H2c : tool_calls st2 = tool_calls st) by reflexivity.
    destruct (if idempotent spec' then cached name' inp' (history st2) else None)
      as [out|] eqn:Ec.
    + apply IH; simpl; rewrite ?H2h, ?H2c.
      * destruct (pair_eq_dec name' inp') as [[-> ->] | Hne].
        -- rewrite Hfind in Ef. injection Ef as <-. rewrite Hidem in Ec.
           apply agree_on_hit; assumption.
        -- apply agree_on_other; assumption.
      * exact Hb.
      * intros H. apply cached_app. exact (Hc H).
    + destruct (call_tool_calls name' inp' 0 (S max_retries) st2)
        as [Hh [k [Hk [Hkl Hk1]]]].
      rewrite H2h in Hh. rewrite H2c in Hk.
      assert (Hnew : (name' = name /\ inp' = inp) ->
                     cached name inp (history st) = None
                     /\ count_calls name inp (tool_calls st) = 0).
      { intros [-> ->]. rewrite Hfind in Ef. injection Ef as <-.
        rewrite Hidem in Ec. split; [exact Ec|].
        destruct (count_calls name inp (tool_calls st)) eqn:E0; [reflexivity|].
        exfalso. apply Hc; [lia | exact Ec]. }
      assert (Hb' : calls_bounded env name inp
                      (tool_calls (call_state (call_tool env name' inp' 0
                                                 (S max_retries) st2)))).
      { rewrite Hk. unfold calls_bounded.
        rewrite count_calls_app, count_calls_repeat.
        destruct (pair_eq_dec name' inp') as [[-> ->] | Hne].
        - destruct (Hnew (conj eq_refl eq_refl)) as [_ H0].
          rewrite H0, !String.eqb_refl. simpl. split; [exact Hkl|].
          intros out Hp. exact (Hk1 out Hp).
        - replace (String.eqb name' name && String.eqb inp' inp) with false.
          + rewrite Nat.add_0_r. exact Hb.
          + destruct Hne as [C | C]; apply String.eqb_neq in C; rewrite C;
              [reflexivity | symmetry; apply andb_false_r]. }
      destruct (call_tool env name' inp' 0 (S max_retries) st2) as [out st3|st3|st3];
        cbn [call_state] in Hh, Hk, Hb'.
      * apply IH; simpl; rewrite ?Hh.
        -- destruct (pair_eq_dec name' inp') as [[-> ->] | Hne].
           ++ apply agree_on_new. exact (proj1 (Hnew (conj eq_refl eq_refl))).
           ++ apply agree_on_other; assumption.
        -- exact Hb'.
        -- intros H. destruct (pair_eq_dec name' inp') as [[-> ->] | Hne].
           ++ apply cached_last.
           ++ apply cached_app. apply Hc. revert H. rewrite Hk, count_calls_app,
                count_calls_repeat.
              replace (String.eqb name' name && String.eqb inp' inp) with false;
                [rewrite Nat.add_0_r; exact (fun H => H)|].
              destruct Hne as [C | C]; apply String.eqb_neq in C; rewrite C;
                [reflexivity | symmetry; apply andb_false_r].
      * simpl. rewrite Hh. split; assumption.
      * simpl. rewrite Hh. split; assumption.
Qed.

(** A request of a tool and input already in the history is served from it:
    no external call, one more observation with the earlier output. *)
Lemma plan_loop_cache_hit n st out :
  cached name inp (history st) = Some out ->
  cancelled env (suspensions st) = false ->
  planner env q (location st) (history st) = Invoke name inp ->
  input_ok spec inp = true ->
  exists st', plan_loop env q (S n) st = plan_loop env q n st'
    /\ history st' = app (history st) [mkInv name inp out (length (history st))]
    /\ tool_calls st' = tool_calls st.
Proof.
  intros Hc Hk Hp Hi. cbn [plan_loop]. unfold suspend. rewrite Hk.
  cbn [tick location history]. rewrite Hp, Hfind, Hi. cbn [negb].
  rewrite Hidem.
  change (cached name inp (history (emit (ToolEvent name) (tick st))))
    with (cached name inp (history st)).
  rewrite Hc. eexists. split; [reflexivity|]. split; reflexivity.
Qed.

End Tool.

(** Every run starts planning, or is cancelled, from a state with no history,
    no tool call and the limit not reached. *)
Lemma geocode_address_keeps a attempt left st :
  history (geo_state (geocode_address env a attempt left st)) = history st
  /\ tool_calls (geo_state (geocode_address env a attempt left st)) = tool_calls st
  /\ reached_limit (geo_state (geocode_address env a attempt left st)) = reached_limit st.
Proof.
  revert attempt st. induction left as [|l IH]; intros attempt st; [now repeat split|].
  cbn [geocode_address]. unfold suspend.
  destruct (cancelled env (suspensions st)); [now repeat split|].
  destruct (geocoder env a attempt) as [la lo p| |].
  - destruct (Nat.ltb _ _); now repeat split.
  - now repeat split.
  - destruct (IH (S attempt) (add_geocode_call a (tick st))) as (A & B & C).
    rewrite A, B, C. now repeat split.
Qed.

Lemma run_start :
  exists st0, history st0 = [] /\ tool_calls st0 = [] /\ reached_limit st0 = false
    /\ (run env q = plan_loop env q (step_limit env) st0 \/ run env q = cancel st0).
Proof.
  unfold run. destruct (extract (text q)) as [r|].
  2: { exists initial. repeat split. now left. }
  assert (Hr : history (geo_state (resolve env r initial)) = []
               /\ tool_calls (geo_state (resolve env r initial)) = []
               /\ reached_limit (geo_state (resolve env r initial)) = false).
  { unfold resolve. destruct r as [a|a b|u].
    - apply (geocode_address_keeps a 0 (S max_retries) initial).
    - now repeat split.
    - destruct (url_coords u) as [[a b]|]; now repeat split. }
  destruct (resolve env r initial) as [l st|st|st]; cbn [geo_state] in Hr;
    destruct Hr as (H1 & H2 & H3).
  - exists (set_location l st). repeat split; try assumption. now left.
  - exists (set_warning st). repeat split; try assumption. now left.
  - exists st. repeat split; try assumption. now right.
Qed.

End Idempotence.

(** C7 as stated fails: when the first attempt of a call is transient the
    retry is a second external call for the same tool and input, although
    the second invocation is then served from the history; and a tool not
    registered as idempotent is called again for the second invocation. *)
Lemma repeated_call_made_twice :
  (tool_calls (run retry_env scenario_C) =
     [("web_search", "land use rules"); ("web_search", "land use rules")]
   /\ map inv_output (history (run retry_env scenario_C)) =
     ["Zoning code R1"; "Zoning code R1"])
  /\ (tool_calls (run live_search_env scenario_C) =
     [("web_search", "land use rules"); ("web_search", "land use rules")]
   /\ map inv_output (history (run live_search_env scenario_C)) =
     ["Zoning code R1"; "Zoning code R1"]).
Proof. repeat split; vm_compute; reflexivity. Qed.

(** C7 amended: for a tool registered as idempotent, a request of an input
    already observed in the run's history is served from it: no external
    call, and the history records one more observation with the earlier
    output. All observations of that tool and input in the history carry
    one output, and the external calls for them are those of one retried
    call: at most [S max_retries], and exactly one when the provider answers
    the first attempt and the tool was invoked with that input. *)
Theorem run_idempotent_tool (env : Env) (q : Query) (name inp : string)
    (spec : ToolSpec) :
  find_tool env name = Some spec ->
  idempotent spec = true ->
  (forall n st out,
     cached name inp (history st) = Some out ->
     cancelled env (suspensions st) = false ->
     planner env q (location st) (history st) = Invoke name inp ->
     input_ok spec inp = true ->
     exists st', plan_loop env q (S n) st = plan_loop env q n st'
       /\ history st' = app (history st) [mkInv name inp out (length (history st))]
       /\ tool_calls st' = tool_calls st)
  /\ (forall i j, In i (history (run env q)) -> In j (history (run env q)) ->
        same_call name inp i = true -> same_call name inp j = true ->
        inv_output i = inv_output j)
  /\ count_calls name inp (tool_calls (run env q)) <= S max_retries
  /\ (forall out, tool_provider env name inp 0 = CallOk out ->
        (exists i, In i (history (run env q)) /\ same_call name inp i = true) ->
        count_calls name inp (tool_calls (run env q)) = 1).
Proof.
  intros Hf Hi.
  split; [intros n st out; exact (plan_loop_cache_hit env q name inp spec Hf Hi n st out)|].
  assert (Hcalled : (exists i, In i (history (run env q)) /\ same_call name inp i = true) ->
                    0 < count_calls name inp (tool_calls (run env q))).
  { intros (i & Hin & Hs).
    assert (Hc : cached name inp (history (run env q)) <> None).
    { unfold cached. destruct (find (same_call name inp) _) eqn:E; [discriminate|].
      rewrite (find_none _ _ E i Hin) in Hs. discriminate. }
    destruct (run_start env q) as (st0 & H1 & H2 & _ & [Hr | Hr]); rewrite Hr in Hc |- *.
    - apply (plan_loop_called env q name inp (step_limit env) st0); [|exact Hc].
      rewrite H1. intros C. contradiction C. reflexivity.
    - exfalso. apply Hc. simpl. rewrite H1. reflexivity. }
  destruct (run_start env q) as (st0 & H1 & H2 & _ & [Hr | Hr]).
  - destruct (plan_loop_idempotent env q name inp spec Hf Hi (step_limit env) st0)
      as [Ha [Hb Hb1]].
    + rewrite H1. intros i j [].
    + rewrite H2. unfold calls_bounded, count_calls. simpl. split; [lia|]. intros; lia.
    + rewrite H2. unfold calls_cached, count_calls. simpl. intros H; exfalso; lia.
    + rewrite Hr in Hcalled |- *. split; [exact Ha|]. split; [exact Hb|].
      intros out Ho He. specialize (Hb1 out Ho). specialize (Hcalled He). lia.
  - rewrite Hr in Hcalled |- *. simpl in Hcalled |- *. rewrite H1, H2 in *.
    split; [intros i j []|].
    unfold count_calls. simpl. split; [lia|].
    intros out _ (i & [] & _).
Qed.

Lemma run_idempotent_tool_witness :
  (exists st', plan_loop steady_env scenario_C 4 after_first_search
                 = plan_loop steady_env scenario_C 3 st'
     /\ history st' =
        [mkInv "web_search" "land use rules" "Zoning code R1" 0;
         mkInv "web_search" "land use rules" "Zoning code R1" 1]
     /\ tool_calls st' = [("web_search", "land use rules")])
  /\ count_calls "web_search" "land use rules" (tool_calls (run steady_env scenario_C)) = 1.
Proof.
  assert (Hf : find_tool steady_env "web_search" =
               Some (mkTool "web_search" true nonempty_input)) by reflexivity.
  destruct (run_idempotent_tool steady_env scenario_C "web_search" "land use rules"
              _ Hf eq_refl) as (Hhit & _ & _ & Hone).
  split.
  - exact (Hhit 3 after_first_search "Zoning code R1" eq_refl eq_refl eq_refl eq_refl).
  - apply (Hone "Zoning code R1" eq_refl).
    exists (mkInv "web_search" "land use rules" "Zoning code R1" 0).
    split; [vm_compute; left; reflexivity | reflexivity].
Defined.

Section Limit.

Variable env : Env.
Variable q : Query.

Lemma call_tool_keeps_limit name inp attempt left st :
  reached_limit (call_state (call_tool env name inp attempt left st)) =
  reached_limit st.
Proof.
  revert attempt st. induction left as [|l IH]; intros attempt st; [reflexivity|].
  cbn [call_tool]. unfold suspend.
  destruct (cancelled env (suspensions st)); [reflexivity|].
  destruct (tool_provider env name inp attempt); [reflexivity|].
  rewrite IH. reflexivity.
Qed.

(** Each step of the planning loop records at most one invocation; the limit
    is reached only after [n] of them, and then the run synthesizes from the
    history, or fails on an empty one. *)
Lemma plan_loop_limit n st :
  reached_limit st = false ->
  length (history (plan_loop env q n st)) <= length (history st) + n
  /\ (reached_limit (plan_loop env q n st) = true ->
      length (history (plan_loop env q n st)) = length (history st) + n
      /\ exists st', history st' = history (plan_loop env q n st)
         /\ location st' = location (plan_loop env q n st)
         /\ plan_loop env q n st =
            match history st' with
            | [] => fail NoUsableAnswer st'
            | _ :: _ => synthesize (best_answer env q (location st') (history st')) st'
            end).
Proof.
  revert st. induction n as [|n IH]; intros st Hl; cbn [plan_loop].
  - destruct (history (set_reached_limit st)) as [|h t] eqn:E.
    + split; [simpl; lia|]. intros _. split; [simpl; lia|].
      exists (set_reached_limit st). split; [reflexivity|]. split; [reflexivity|].
      rewrite E. reflexivity.
    + destruct (synthesize_keeps (best_answer env q (location (set_reached_limit st))
                                    (h :: t)) (set_reached_limit st))
        as (E1 & _ & E3 & _).
      rewrite E1, E3. split; [simpl; lia|]. intros _. split; [simpl; lia|].
      exists (set_reached_limit st). split; [reflexivity|]. split; [reflexivity|].
      rewrite E. reflexivity.
  - assert (Hend : forall r, reached_limit r = false ->
                  length (history r) <= length (history st) + S n ->
                  length (history r) <= length (history st) + S n
                  /\ (reached_limit r = true -> False))
      by (intros r Hr Hlen; split; [exact Hlen | congruence]).
    unfold suspend. destruct (cancelled env (suspensions st)).
    { split; [simpl; lia | simpl; congruence]. }
    destruct (planner env q (location (tick st)) (history (tick st))) as [name inp|t].
    2: { destruct (synthesize_keeps t (tick st)) as (E1 & _ & _ & E4).
         rewrite E1, E4. split; [simpl; lia | simpl; congruence]. }
    destruct (find_tool env name) as [spec|]; [|split; [simpl; lia | simpl; congruence]].
    destruct (negb (input_ok spec inp)); [split; [simpl; lia | simpl; congruence]|].
    assert (Hrec : forall st3, history st3 = history st -> reached_limit st3 = false ->
              forall out,
              length (history (plan_loop env q n (record name inp out st3)))
                <= length (history st) + S n
              /\ (reached_limit (plan_loop env q n (record name inp out st3)) = true ->
                  length (history (plan_loop env q n (record name inp out st3)))
                    = length (history st) + S n
                  /\ exists st', history st' =
                                 history (plan_loop env q n (record name inp out st3))
                     /\ location st' = location (plan_loop env q n (record name inp out st3))
                     /\ plan_loop env q n (record name inp out st3) =
                        match history st' with
                        | [] => fail NoUsableAnswer st'
                        | _ :: _ => synthesize (best_answer env q (location st')
                                                  (history st')) st'
                        end)).
    { intros st3 Hh Hr out.
      destruct (IH (record name inp out st3) Hr) as [Hle Hreach].
      assert (Hlen : length (history (record name inp out st3)) = S (length (history st)))
        by (simpl; rewrite length_app, Hh; simpl; lia).
      rewrite Hlen in Hle, Hreach. split; [lia|].
      intros H. destruct (Hreach H) as [Heq Hx]. split; [lia | exact Hx]. }
    destruct (if idempotent spec then _ else None) as [out|].
    + exact (Hrec (emit (ToolEvent name) (tick st)) eq_refl Hl out).
    + pose proof (proj1 (call_tool_calls env name inp 0 (S max_retries)
                           (emit (ToolEvent name) (tick st)))) as Hh.
      pose proof (call_tool_keeps_limit name inp 0 (S max_retries)
                    (emit (ToolEvent name) (tick st))) as Hr.
      destruct (call_tool env name inp 0 (S max_retries) _) as [out st3|st3|st3];
        cbn [call_state] in Hh, Hr.
      * exact (Hrec st3 Hh (eq_trans Hr Hl) out).
      * split; [simpl; rewrite Hh; simpl; lia | simpl; rewrite Hr; simpl; congruence].
      * split; [simpl; rewrite Hh; simpl; lia | simpl; rewrite Hr; simpl; congruence].
Qed.

End Limit.

(** C8 as stated fails: at the limit with a non-empty history the run still
    fails when the best-effort answer is empty. *)
Lemma limit_reached_with_history_fails :
  reached_limit (run no_answer_env scenario_C) = true
  /\ history (run no_answer_env scenario_C) <> []
  /\ status (run no_answer_env scenario_C) = Failed.
Proof.
  split; [vm_compute; reflexivity|]. split; [vm_compute; discriminate|].
  vm_compute; reflexivity.
Qed.

(** C8 amended: a run records at most [step_limit] invocations; when it
    reaches the limit it has recorded exactly that many, it fails exactly
    when the history is empty or the best-effort answer from the history is
    empty, and otherwise its final answer is that best-effort answer. *)
Theorem run_respects_step_limit (env : Env) (q : Query) :
  length (history (run env q)) <= step_limit env
  /\ (reached_limit (run env q) = true ->
      length (history (run env q)) = step_limit env
      /\ (status (run env q) = Failed <->
          history (run env q) = []
          \/ best_answer env q (location (run env q)) (history (run env q)) = EmptyString)
      /\ (status (run env q) <> Failed ->
          finalAnswer (run env q) =
          Some (best_answer env q (location (run env q)) (history (run env q))))).
Proof.
  destruct (run_start env q) as (st0 & H1 & _ & H3 & [Hr | Hr]).
  2: { rewrite Hr. simpl. rewrite H1. split; [simpl; lia|]. congruence. }
  destruct (plan_loop_limit env q (step_limit env) st0 H3) as [Hle Hreach].
  rewrite <- Hr in Hle, Hreach. rewrite H1 in Hle, Hreach. simpl in Hle, Hreach.
  split; [exact Hle|]. intros H. destruct (Hreach H) as [Hlen (st' & Hh & Hl & Hst)].
  split; [exact Hlen|]. rewrite <- Hh, <- Hl. rewrite Hst.
  destruct (history st') as [|h t] eqn:E.
  - simpl. split; [split; [intros _; now left | reflexivity]|]. congruence.
  - unfold synthesize.
    destruct (best_answer env q (location st') (h :: t)) as [|c s] eqn:Eb.
    + simpl. split; [split; [intros _; now right | reflexivity]|]. congruence.
    + destruct (location_warning st'); simpl.
      * split; [split; [discriminate | intros [C | C]; discriminate C]|].
        reflexivity.
      * split; [split; [discriminate | intros [C | C]; discriminate C]|].
        reflexivity.
Qed.

End OrchestratorClaims.

(* ================================================================== *)
(** * Proofs: the location extractor *)

Module ExtractorClaims.

Import Json Extractor Observe.

Lemma digits_nodigit r : continues_number r = false -> digits r = ([], r).
Proof.
  destruct r as [|c r]; [reflexivity|]. simpl. destruct (is_digit c); [discriminate|].
  reflexivity.
Qed.

Lemma digits_app_empty s r ds :
  digits s = (ds, EmptyString) ->
  digits (s ++ r) = (ds ++ fst (digits r), snd (digits r))%list.
Proof.
  revert ds. induction s as [|c s IH]; intros ds H.
  - simpl in H. injection H as <-. simpl. now destruct (digits r).
  - simpl in H |- *. destruct (is_digit c); [|discriminate].
    destruct (digits s) as [ds1 r1] eqn:E. injection H as <- ->.
    rewrite (IH ds1 eq_refl). reflexivity.
Qed.

Lemma digits_app_cons s r ds c t :
  digits s = (ds, String c t) -> digits (s ++ r) = (ds, String c (t ++ r)).
Proof.
  revert ds. induction s as [|c0 s IH]; intros ds H.
  - discriminate H.
  - simpl in H |- *. destruct (is_digit c0).
    + destruct (digits s) as [ds1 r1] eqn:E. injection H as <- ->.
      rewrite (IH ds1 eq_refl). reflexivity.
    + injection H as <- -> ->. reflexivity.
Qed.

(** A decimal literal followed by text that does not extend it. *)
Lemma pdec_app s r d :
  pdec s = Some (d, EmptyString) -> continues_number r = false ->
  pdec (s ++ r) = Some (d, r).
Proof.
  intros H Hr.
  assert (Hmain : forall (s1 : string) (neg : bool),
    (let (ids, s2) := digits s1 in
     match ids with
     | [] => None
     | _ :: _ =>
       let '(fds, s3) :=
         match s2 with
         | String d r => if is_char d 46 then
                          let (fds, r') := digits r in
                          match fds with [] => ([], s2) | _ :: _ => (fds, r') end
                        else ([], s2)
         | EmptyString => ([], s2)
         end in
       let m := digits_value (ids ++ fds)%list in
       Some (mkdec (if neg then - m else m)%Z (length fds), s3)
     end) = Some (d, EmptyString) ->
    (let (ids, s2) := digits (s1 ++ r) in
     match ids with
     | [] => None
     | _ :: _ =>
       let '(fds, s3) :=
         match s2 with
         | String d r => if is_char d 46 then
                          let (fds, r') := digits r in
                          match fds with [] => ([], s2) | _ :: _ => (fds, r') end
                        else ([], s2)
         | EmptyString => ([], s2)
         end in
       let m := digits_value (ids ++ fds)%list in
       Some (mkdec (if neg then - m else m)%Z (length fds), s3)
     end) = Some (d, r)).
  { intros s1 neg H1.
    destruct (digits s1) as [ids s2] eqn:E1.
    destruct ids as [|i ids]; [discriminate|].
    destruct s2 as [|c t].
    - rewrite (digits_app_empty _ _ _ E1), (digits_nodigit r Hr).
      cbv zeta in H1. injection H1 as <-. cbn [fst snd]. rewrite app_nil_r.
      destruct r as [|c r]; [reflexivity|].
      simpl in Hr. apply orb_false_iff in Hr. destruct Hr as [Hc Hr].
      destruct (is_char c 46) eqn:Ed.
      + destruct r as [|c' r]; [reflexivity|].
        simpl in Hr. cbn [digits]. rewrite Hr. reflexivity.
      + reflexivity.
    - rewrite (digits_app_cons _ _ _ _ _ E1).
      destruct (is_char c 46) eqn:Ed.
      + destruct (digits t) as [fds r'] eqn:E2.
        destruct fds as [|f fds]; [injection H1 as _ H1; discriminate H1|].
        destruct r' as [|c2 r2]; [|injection H1 as _ H1; discriminate H1].
        cbv zeta in H1. injection H1 as <-.
        rewrite (digits_app_empty _ _ _ E2), (digits_nodigit r Hr).
        cbn [fst snd]. rewrite app_nil_r. reflexivity.
      + injection H1 as _ H1. discriminate H1. }
  unfold pdec in H |- *.
  destruct s as [|c s]; [discriminate|].
  change (String c s ++ r) with (String c (s ++ r)). cbv beta iota in H |- *.
  destruct (is_char c 45).
  - apply (Hmain s true). exact H.
  - apply (Hmain (String c s) false). exact H.
Qed.

Lemma ws_not_number c :
  is_js_ws c = true -> is_digit c = false /\ is_char c 46 = false /\ is_char c 44 = false.
Proof.
  unfold is_js_ws, is_digit, is_char, code. intros H.
  apply orb_true_iff in H. rewrite andb_true_iff, !Nat.leb_le, Nat.eqb_eq in H.
  repeat split.
  - apply andb_false_iff. destruct H as [[H1 H2] | H]; left; apply Z.leb_gt; lia.
  - apply Nat.eqb_neq. lia.
  - apply Nat.eqb_neq. lia.
Qed.

Lemma number_not_ws c : (is_char c 45 = true \/ is_digit c = true) -> is_js_ws c = false.
Proof.
  unfold is_js_ws, is_digit, is_char, code. intros H.
  apply orb_false_iff. rewrite andb_false_iff, !Nat.leb_gt, Nat.eqb_neq.
  destruct H as [H | H].
  - apply Nat.eqb_eq in H. lia.
  - apply andb_true_iff in H. rewrite !Z.leb_le in H. lia.
Qed.

Lemma pdec_head s p :
  pdec s = Some p -> exists c t, s = String c t /\ is_js_ws c = false.
Proof.
  destruct s as [|c t]; [discriminate|]. intros H. exists c, t. split; [reflexivity|].
  apply number_not_ws. destruct (is_char c 45) eqn:E; [now left|right].
  unfold pdec in H. rewrite E in H. cbn [digits] in H.
  destruct (is_digit c); [reflexivity | discriminate H].
Qed.

Lemma trim_start_ws_app w t : all_ws w = true -> trim_start (w ++ t) = trim_start t.
Proof.
  induction w as [|c w IH]; [reflexivity|]. simpl. intros H.
  apply andb_true_iff in H. destruct H as [-> H]. exact (IH H).
Qed.

Lemma trim_start_number s t p : pdec s = Some p -> trim_start (s ++ t) = s ++ t.
Proof.
  intros H. destruct (pdec_head s p H) as (c & r & -> & Hc). simpl. now rewrite Hc.
Qed.

Lemma ppair_at lat_s w1 w2 lon_s suf a b :
  pdec lat_s = Some (a, EmptyString) ->
  pdec lon_s = Some (b, EmptyString) ->
  all_ws w1 = true -> all_ws w2 = true ->
  continues_number suf = false ->
  ppair (lat_s ++ w1 ++ "," ++ w2 ++ lon_s ++ suf) = Some (a, b, suf).
Proof.
  intros Ha Hb H1 H2 Hs. unfold ppair.
  rewrite (pdec_app _ _ _ Ha).
  - rewrite (trim_start_ws_app _ _ H1). simpl.
    rewrite (trim_start_ws_app _ _ H2), (trim_start_number _ _ _ Hb).
    now rewrite (pdec_app _ _ _ Hb Hs).
  - destruct w1 as [|c w]; [reflexivity|]. simpl in H1 |- *.
    apply andb_true_iff in H1. destruct H1 as [H1 _].
    destruct (ws_not_number c H1) as (-> & -> & _). reflexivity.
Qed.

(** The coordinate rule passes over text where no plausible pair starts. *)
Lemma find_coords_skip pre prev x a b suf :
  no_pair_in prev pre x = true ->
  number_boundary (match last_char pre with None => prev | Some c => Some c end)
    = true ->
  ppair x = Some (a, b, suf) -> plausible a b = true -> x <> EmptyString ->
  find_coords prev (pre ++ x) = Some (a, b).
Proof.
  revert prev. induction pre as [|c p IH]; intros prev Hn Hb Hx Hp Hne.
  - destruct x as [|c x]; [now contradiction Hne|]. simpl in Hb |- *.
    rewrite Hb, Hx, Hp. reflexivity.
  - simpl in Hn |- *. apply andb_true_iff in Hn. destruct Hn as [Hc Hn].
    assert (Hb' : number_boundary (match last_char p with None => Some c
                                   | Some d => Some d end) = true)
      by (simpl in Hb; destruct (last_char p); exact Hb).
    destruct (number_boundary prev); cbn [andb negb] in Hc |- *;
      [|exact (IH (Some c) Hn Hb' Hx Hp Hne)].
    destruct (ppair (String c (p ++ x))) as [[[a' b'] r']|];
      [|exact (IH (Some c) Hn Hb' Hx Hp Hne)].
    destruct (plausible a' b'); [discriminate Hc|].
    exact (IH (Some c) Hn Hb' Hx Hp Hne).
Qed.

(** C9 as stated fails: a text with two valid pairs gives the leftmost one,
    so not every valid pair it contains is the one extracted. *)
Lemma leftmost_valid_pair_missed :
  let t := "Is the shop open 24, 7 days near 40.7484, -73.9857?" in
  t = "Is the shop open 24, 7 days near " ++ "40.7484" ++ EmptyString ++ "," ++ " "
        ++ "-73.9857" ++ "?"
  /\ pdec "40.7484" = Some (mkdec 407484 4, EmptyString)
  /\ pdec "-73.9857" = Some (mkdec (-739857) 4, EmptyString)
  /\ plausible (mkdec 407484 4) (mkdec (-739857) 4) = true
  /\ find_maps_url None t = None
  /\ extract t = Some (Coordinates (mkdec 24 0) (mkdec 7 0)).
Proof. repeat split; vm_compute; reflexivity. Qed.

(** C9 amended: a valid latitude/longitude pair, separated by a comma and
    optional white space, is extracted with exactly its two values, whatever
    the prose before and after it, when it is the leftmost valid pair of the
    text (none starts earlier), the text holds no map URL, and the
    characters right around the pair do not extend its numbers. *)
Theorem extract_coordinates_leftmost_pair
    (pre lat_s w1 w2 lon_s suf : string) (a b : dec) :
  pdec lat_s = Some (a, EmptyString) ->
  pdec lon_s = Some (b, EmptyString) ->
  plausible a b = true ->
  no_pair_in None pre (lat_s ++ w1 ++ "," ++ w2 ++ lon_s ++ suf) = true ->
  may_precede_number (last_char pre) = true ->
  all_ws w1 = true -> all_ws w2 = true ->
  continues_number suf = false ->
  find_maps_url None (pre ++ lat_s ++ w1 ++ "," ++ w2 ++ lon_s ++ suf) = None ->
  extract (pre ++ lat_s ++ w1 ++ "," ++ w2 ++ lon_s ++ suf) = Some (Coordinates a b).
Proof.
  intros Ha Hb Hp Hn Hm H1 H2 Hs Hu. unfold extract. rewrite Hu.
  rewrite (find_coords_skip pre None _ a b suf Hn).
  - reflexivity.
  - unfold may_precede_number in Hm. apply andb_true_iff in Hm.
    destruct (last_char pre); exact (proj1 Hm).
  - exact (ppair_at _ _ _ _ _ _ _ Ha Hb H1 H2 Hs).
  - exact Hp.
  - destruct (pdec_head _ _ Ha) as (c & t & -> & _). discriminate.
Qed.

Lemma extract_coordinates_leftmost_pair_witness :
  extract ("Top 5 parks near " ++ "37.7749" ++ EmptyString ++ "," ++ " "
           ++ "-122.4194" ++ EmptyString)
  = Some (Coordinates (mkdec 377749 4) (mkdec (-1224194) 4)).
Proof.
  apply extract_coordinates_leftmost_pair; try (vm_compute; reflexivity).
Defined.

End ExtractorClaims.


(* ================================================================== *)
(** * Proofs: the requests *)

Module RequestFacts.

Import Json Client Stringify.

Lemma pstr_quote_unit c r :
  pstr (quote_unit c ++ r) =
  match pstr r with Some (us, rest) => Some (code c :: us, rest) | None => None end.
Proof.
  destruct c as [[] [] [] [] [] [] [] []]; reflexivity.
Qed.

Lemma pstr_quote_units s r :
  pstr (quote_units s ++ String dqc r) = Some (units s, r).
Proof.
  induction s as [|c s IH]; [reflexivity|].
  simpl. rewrite append_assoc_str, pstr_quote_unit, IH. reflexivity.
Qed.

Lemma quote_json_app s r :
  quote_json s ++ r = String dqc (quote_units s ++ String dqc r).
Proof.
  unfold quote_json. simpl. rewrite append_assoc_str. reflexivity.
Qed.

Lemma pvalue_quote f s r : pvalue (S f) (quote_json s ++ r) = Some (JStr (units s), r).
Proof.
  rewrite quote_json_app.
  change (pvalue (S f) (String dqc (quote_units s ++ String dqc r))) with
    (match pstr (quote_units s ++ String dqc r) with
     | Some (us, rest) => Some (JStr us, rest) | None => None end).
  now rewrite pstr_quote_units.
Qed.

Lemma pmembers_quote f k v r :
  pmembers (S (S f)) (quote_json k ++ ":" ++ quote_json v ++ r) =
  match skip_ws r with
  | String c r4 =>
      if ch c 44 then
        match pmembers (S f) r4 with
        | Some (ms, rest) => Some ((units k, JStr (units v)) :: ms, rest)
        | None => None
        end
      else if ch c 125 then Some ([(units k, JStr (units v))], r4)
      else None
  | EmptyString => None
  end.
Proof.
  rewrite quote_json_app.
  change (pmembers (S (S f)) (String dqc (quote_units k ++ String dqc (":" ++ quote_json v ++ r))))
    with (match pstr (quote_units k ++ String dqc (":" ++ quote_json v ++ r)) with
          | None => None
          | Some (k', r1) =>
              match skip_ws r1 with
              | String col r2 =>
                  if negb (ch col 58) then None else
                  match pvalue (S f) r2 with
                  | None => None
                  | Some (v', r3) =>
                      match skip_ws r3 with
                      | String c r4 =>
                          if ch c 44 then
                            match pmembers (S f) r4 with
                            | Some (ms, rest) => Some ((k', v') :: ms, rest)
                            | None => None
                            end
                          else if ch c 125 then Some ([(k', v')], r4)
                          else None
                      | EmptyString => None
                      end
                  end
              | EmptyString => None
              end
          end).
  rewrite pstr_quote_units.
  change (":" ++ quote_json v ++ r) with (String ":" (quote_json v ++ r)).
  change (skip_ws (String ":" (quote_json v ++ r))) with (String ":" (quote_json v ++ r)).
  change (negb (ch ":" 58)) with false. cbv beta iota.
  rewrite pvalue_quote. reflexivity.
Qed.

Lemma pvalue_obj f R :
  pvalue (S f) (String "{" R) =
  match skip_ws R with
  | String c2 r2 =>
      if ch c2 125 then Some (JObj [], r2)
      else match pmembers f R with
           | Some (ms, rest) => Some (JObj ms, rest)
           | None => None
           end
  | EmptyString => None
  end.
Proof. reflexivity. Qed.

Lemma skip_ws_quote s r : skip_ws (quote_json s ++ r) = quote_json s ++ r.
Proof. rewrite quote_json_app. reflexivity. Qed.

(** [JSON.parse] reads the body [JSON.stringify] wrote back: the query and,
    when present, the user id, as strings. *)
Lemma parse_request_body (queryText : string) (userId : option string) :
  Json.parse (request_body queryText userId) =
  Some (JObj (app [(units "query", JStr (units queryText))]
                  (match userId with
                   | Some u => [(units "userId", JStr (units u))]
                   | None => []
                   end))).
Proof.
  unfold Json.parse.
  assert (Hl : exists k, (2 * String.length (request_body queryText userId) = S (S (S (S (S k)))))%nat).
  { exists (2 * String.length (request_body queryText userId) - 5)%nat.
    unfold request_body. simpl. lia. }
  destruct Hl as [k Hk]. rewrite Hk.
  unfold request_body.
  change ("{" ++ ?X) with (String "{" X). rewrite pvalue_obj, skip_ws_quote.
  rewrite quote_json_app. cbv beta iota. change (ch dqc 125) with false. cbv beta iota.
  rewrite <- quote_json_app. rewrite pmembers_quote.
  destruct userId as [u|].
  - rewrite !append_assoc_str. change ("," ++ ?X) with (String "," X).
    change (skip_ws (String "," ?X)) with (String "," X). cbv beta iota.
    change (ch "," 44) with true. cbv beta iota.
    rewrite pmembers_quote. reflexivity.
  - reflexivity.
Qed.

(** [processQuery] and [processQueryStream] both send a POST whose
    JSON body parses back to an object holding exactly the query text
    under [query] and, when a user id is given, that id under [userId],
    whatever characters the two strings contain. *)
Theorem processQuery_requests_roundtrip (API_URL : option string)
    (queryText : string) (userId : option string) :
  let expected :=
    Some (JObj (app [(units "query", JStr (units queryText))]
                    (match userId with
                     | Some u => [(units "userId", JStr (units u))]
                     | None => []
                     end))) in
  Json.parse (req_body (processQuery_request API_URL queryText userId)) = expected
  /\ Json.parse (req_body (processQueryStream_request API_URL queryText userId))
     = expected
  /\ req_method (processQuery_request API_URL queryText userId) = "POST"
  /\ req_method (processQueryStream_request API_URL queryText userId) = "POST".
Proof.
  cbv zeta. repeat split; apply parse_request_body.
Qed.

End RequestFacts.

(* ================================================================== *)
(** * Proofs: the number of events of a stream *)

Module StreamFacts.

Import Client.

Lemma cons_first_length c ps : ps <> [] -> length (cons_first c ps) = length ps.
Proof. destruct ps; [now intros C; contradiction C | reflexivity]. Qed.

Lemma split_nn_cons2 c c' r :
  split_nn (String c (String c' r)) =
  if is_nl c && is_nl c' then EmptyString :: split_nn r
  else cons_first c (split_nn (String c' r)).
Proof. reflexivity. Qed.

Lemma count_sep_cons2 c c' r :
  count_sep (String c (String c' r)) =
  if is_nl c && is_nl c' then S (count_sep r) else count_sep (String c' r).
Proof. reflexivity. Qed.

Lemma length_split_nn s : length (split_nn s) = S (count_sep s).
Proof.
  remember (String.length s) as n eqn:Hn.
  revert s Hn. induction n as [n IH] using lt_wf_ind. intros s Hn.
  destruct s as [|c [|c' r]]; [reflexivity | reflexivity|].
  rewrite split_nn_cons2, count_sep_cons2.
  destruct (is_nl c && is_nl c').
  - cbn [length]. f_equal. apply (IH (String.length r)); [simpl in Hn; lia | reflexivity].
  - rewrite cons_first_length by apply split_nn_nonempty.
    apply (IH (String.length (String c' r))); [simpl in Hn |- *; lia | reflexivity].
Qed.

Lemma count_sep_no_sep s : has_sep s = false -> count_sep s = 0%nat.
Proof.
  remember (String.length s) as n eqn:Hn.
  revert s Hn. induction n as [n IH] using lt_wf_ind. intros s Hn H.
  destruct s as [|c [|c' r]]; [reflexivity | reflexivity|].
  cbn [has_sep] in H. apply orb_false_iff in H. destruct H as [H1 H2].
  rewrite count_sep_cons2, H1.
  apply (IH (String.length (String c' r))); [simpl in Hn |- *; lia | reflexivity | exact H2].
Qed.

Lemma filter_map_parts_length {value} (JSON_parse : string -> option value) ps :
  (length (filter_map_parts JSON_parse ps) <= length ps)%nat.
Proof.
  induction ps as [|p ps IH]; simpl; [lia|].
  destruct (process_part JSON_parse p); simpl; lia.
Qed.

Lemma length_removelast_pred {A} (l : list A) : length (removelast l) = pred (length l).
Proof.
  induction l as [|a l IH]; [reflexivity|].
  destruct l as [|b l]; [reflexivity|]. cbn [removelast length] in *. rewrite IH. reflexivity.
Qed.

Lemma processQueryStream_length_le {value} (JSON_parse : string -> option value)
    (cs : list string) :
  (length (processQueryStream JSON_parse cs) <= count_sep (join cs))%nat.
Proof.
  unfold processQueryStream. rewrite read_loop_spec by reflexivity.
  simpl. eapply Nat.le_trans; [apply filter_map_parts_length|].
  rewrite length_removelast_pred.
  rewrite length_split_nn. lia.
Qed.

(** [processQueryStream] calls [onEvent] at most once per blank line
    (['\n\n'], counted from the left without overlap) of the body, however
    the body is cut into chunks. *)
Theorem processQueryStream_events_bounded {value} (JSON_parse : string -> option value)
    (cs : list string) :
  (length (processQueryStream JSON_parse cs) <= count_sep (join cs))%nat.
Proof. apply processQueryStream_length_le. Qed.

(** A body without two consecutive newlines gives no event at all: the
    whole body stays in the buffer, which is dropped when the reader is
    done. A body framed with CRLF line endings is such a body. *)
Theorem processQueryStream_no_blank_line {value} (JSON_parse : string -> option value)
    (cs : list string) :
  has_sep (join cs) = false -> processQueryStream JSON_parse cs = [].
Proof.
  intros H. pose proof (processQueryStream_length_le JSON_parse cs) as B.
  rewrite (count_sep_no_sep _ H) in B.
  destruct (processQueryStream JSON_parse cs); [reflexivity | simpl in B; lia].
Qed.

Lemma processQueryStream_no_blank_line_witness :
  has_sep (join [frame_tool ++ crlf ++ crlf; frame_final ++ crlf ++ crlf]) = false
  /\ processQueryStream Json.parse
       [frame_tool ++ crlf ++ crlf; frame_final ++ crlf ++ crlf] = [].
Proof.
  assert (H : has_sep (join [frame_tool ++ crlf ++ crlf; frame_final ++ crlf ++ crlf])
              = false) by (vm_compute; reflexivity).
  split; [exact H | exact (processQueryStream_no_blank_line Json.parse _ H)].
Defined.

End StreamFacts.

(* ================================================================== *)
(** * Proofs: the query page *)

Module PageFacts.

Import Json Client Stringify Page.

Section PageFacts.

Variable number_to_string : Z -> Z -> list Z.

(* The [.then] handler hides the spinner and posts nothing. *)
Lemma on_data_keeps data p :
  loading_display (on_data number_to_string data p) = units "none"
  /\ posted (on_data number_to_string data p) = posted p.
Proof.
  unfold on_data.
  destruct (member "status" data) as [st|]; [|split; reflexivity].
  destruct (js_str_eq st "success").
  - destruct (member "result" data); split; reflexivity.
  - destruct (js_str_eq st "warning").
    + destruct (member "result" data); [|split; reflexivity].
      destruct (member "message" data); split; reflexivity.
    + destruct (member "message" data); split; reflexivity.
Qed.

(** [submitQuery] posts nothing for an empty query box. For any other
    content, including blanks only (the value is not trimmed), it posts
    exactly one body, which parses to the object [{query}] holding the box's
    text, whatever the server then answers. *)
Theorem submitQuery_posts_query o p :
  (query_value p = EmptyString ->
   posted (submitQuery number_to_string o p) = posted p)
  /\ (query_value p <> EmptyString ->
      exists b, posted (submitQuery number_to_string o p) = app (posted p) [b]
        /\ Json.parse b = Some (JObj [(units "query", JStr (units (query_value p)))])).
Proof.
  split.
  - intros H. unfold submitQuery. rewrite H. reflexivity.
  - intros H. exists (request_body (query_value p) None).
    split; [|apply (RequestFacts.parse_request_body (query_value p) None)].
    unfold submitQuery. destruct (query_value p) eqn:E; [now contradiction H|].
    rewrite <- E.
    destruct o as [|body]; [reflexivity|].
    destruct (Json.parse body) as [data|]; [|reflexivity].
    apply on_data_keeps.
Qed.

(** Once a non-empty query has been handled, whether the server answered
    with JSON of any shape, with a body that is not JSON, or not at all,
    the loading spinner is hidden; an empty query leaves it as it was. *)
Theorem submitQuery_spinner o p :
  loading_display (submitQuery number_to_string o p) =
  match query_value p with
  | EmptyString => loading_display p
  | _ => units "none"
  end.
Proof.
  unfold submitQuery. destruct (query_value p); [reflexivity|].
  destruct o as [|body]; [reflexivity|].
  destruct (Json.parse body) as [data|]; [|reflexivity].
  apply on_data_keeps.
Qed.



(** For a non-empty query that gets no response, a body that is not JSON,
    or the JSON [null] (reading [data.status] then throws), the page shows
    the connection error text with class [error], with the result box and
    the spinner hidden. *)
Theorem submitQuery_connection_error o p :
  query_value p <> EmptyString ->
  (o = NetworkError
   \/ exists body, o = ResponseBody body
        /\ (Json.parse body = None \/ Json.parse body = Some JNull)) ->
  status_html (submitQuery number_to_string o p)
    = units "Error connecting to the server. Please try again."
  /\ status_class (submitQuery number_to_string o p) = units "error"
  /\ result_display (submitQuery number_to_string o p) = units "none"
  /\ loading_display (submitQuery number_to_string o p) = units "none".
Proof.
  intros H Ho. unfold submitQuery. destruct (query_value p) eqn:E; [now contradiction H|].
  destruct Ho as [-> | (body & -> & [Hp | Hp])]; [repeat split| |];
    rewrite Hp; repeat split.
Qed.

End PageFacts.



Lemma submitQuery_connection_error_witness :
  status_class (submitQuery digits_number (ResponseBody "null")
                  (sample_page "Parks near 40.7484, -73.9857")) = units "error".
Proof.
  destruct (submitQuery_connection_error digits_number (ResponseBody "null")
              (sample_page "Parks near 40.7484, -73.9857"))
    as (_ & H & _); [discriminate | right; exists "null"; split;
                     [reflexivity | right; vm_compute; reflexivity] |].
  exact H.
Defined.

End PageFacts.

(* ================================================================== *)
(** * Claims about the non-streaming endpoint *)

Module ServerClaims.

Import Json Client Stringify Extractor Orchestrator Scenarios Observe Server.
Import RequestFacts.

Lemma pmembers_comma f k v R :
  pmembers (S (S f)) (quote_json k ++ ":" ++ quote_json v ++ "," ++ R) =
  match pmembers (S f) R with
  | Some (ms, rest) => Some ((units k, JStr (units v)) :: ms, rest)
  | None => None
  end.
Proof.
  rewrite pmembers_quote. change ("," ++ R) with (String "," R). reflexivity.
Qed.

Lemma pmembers_close f k v r :
  pmembers (S (S f)) (quote_json k ++ ":" ++ quote_json v ++ "}" ++ r) =
  Some ([(units k, JStr (units v))], r).
Proof.
  rewrite pmembers_quote. change ("}" ++ r) with (String "}" r). reflexivity.
Qed.

Lemma pmembers_close_end f k v :
  pmembers (S (S f)) (quote_json k ++ ":" ++ quote_json v ++ "}") =
  Some ([(units k, JStr (units v))], EmptyString).
Proof.
  change (quote_json v ++ "}") with (quote_json v ++ "}" ++ EmptyString).
  apply pmembers_close.
Qed.

Lemma parse_response_body s r m :
  Json.parse (response_body s r m) =
  Some (JObj ((units "status", JStr (units (status_text s)))
              :: app (opt_field "result" r) (opt_field "message" m))).
Proof.
  unfold Json.parse.
  assert (Hl : exists k, (2 * String.length (response_body s r m)
                          = S (S (S (S (S (S (S k)))))))%nat).
  { exists (2 * String.length (response_body s r m) - 7)%nat.
    unfold response_body. simpl. lia. }
  destruct Hl as [k Hk]. rewrite Hk.
  unfold response_body.
  change ("{" ++ ?X) with (String "{" X). rewrite pvalue_obj, skip_ws_quote.
  rewrite quote_json_app. cbv beta iota. change (ch dqc 125) with false. cbv beta iota.
  rewrite <- quote_json_app.
  rewrite ?append_assoc_str.
  destruct r as [x|]; destruct m as [y|]; unfold opt_member;
    rewrite ?append_assoc_str; try change (EmptyString ++ ?X) with X;
    try change (EmptyString ++ ?X) with X;
    repeat first [rewrite pmembers_comma | rewrite pmembers_close_end];
    reflexivity.
Qed.

Lemma response_shape s r m :
  spec_query_response
    (JObj ((units "status", JStr (units (status_text s)))
           :: app (opt_field "result" r) (opt_field "message" m))) = true
  /\ str_is "status"
       (JObj ((units "status", JStr (units (status_text s)))
              :: app (opt_field "result" r) (opt_field "message" m)))
       (status_text s) = true.
Proof.
  destruct s, r, m; split; vm_compute; reflexivity.
Qed.

Lemma run_well_ended (env : Env) (q : Query) : well_ended (run env q).
Proof.
  assert (H0 : tools_only initial) by (exists []; reflexivity).
  unfold run. destruct (extract (text q)) as [r|].
  - pose proof (OrchestratorClaims.resolve_events env r initial) as He.
    destruct (resolve env r initial) as [l st|st|st]; simpl in He.
    + apply OrchestratorClaims.plan_loop_well_ended. exists []. simpl. exact He.
    + apply OrchestratorClaims.plan_loop_well_ended. exists []. simpl. exact He.
    + apply OrchestratorClaims.cancel_well_ended. exists []. exact He.
  - now apply OrchestratorClaims.plan_loop_well_ended.
Qed.

(** C4: for every query whose run is not cancelled, the non-streaming
    endpoint sends a body from which [processQuery] returns one JSON object
    of the shape [{status: success|warning|error, result?: string,
    message?: string}], with no other member, whose status is the run's
    terminal status ([warning] for a run ending in [Warning]). *)
Theorem processQuery_returns_spec_response (env : Env) (q : Query) :
  status (run env q) <> Cancelled ->
  exists body v fs,
    query_response (run env q) = Some body
    /\ processQuery body = Some v
    /\ spec_query_response v = true
    /\ final_status_of (status (run env q)) = Some fs
    /\ str_is "status" v (status_text fs) = true.
Proof.
  intros Hc. destruct (run_well_ended env q) as [[C _] | (names & fs & r & m & He & Hs)];
    [contradiction|].
  exists (response_body fs r m).
  exists (JObj ((units "status", JStr (units (status_text fs)))
                :: app (opt_field "result" r) (opt_field "message" m))).
  exists fs.
  destruct (response_shape fs r m) as [H1 H2].
  split; [|split; [apply parse_response_body|split; [exact H1|split; [exact Hs|exact H2]]]].
  unfold query_response. rewrite He, rev_app_distr. reflexivity.
Qed.

Lemma processQuery_returns_spec_response_witness :
  exists body v,
    query_response (run unresolved_env scenario_D) = Some body
    /\ processQuery body = Some v
    /\ spec_query_response v = true
    /\ str_is "status" v "warning" = true.
Proof.
  destruct (processQuery_returns_spec_response unresolved_env scenario_D
              ltac:(vm_compute; discriminate))
    as (body & v & fs & H1 & H2 & H3 & H4 & H5).
  assert (Hfs : fs = StWarning).
  { vm_compute in H4. injection H4 as <-. reflexivity. }
  subst fs. exists body, v. repeat split; assumption.
Defined.

End ServerClaims.
